(** * Ball game logic (src/logic.py): a shallow embedding and its properties

    Number model.  Python floats are idealised as exact rationals ([Q]); a
    Python [int] is a [Z].  The results of [math.sqrt] are only ever compared
    by the program; they are kept symbolically ([Sqrt q]) and compared on
    squares, and lemma [num_ltb_spec] ties that comparison to the real square
    root.  The random draws ([random.randint], and the cosine and sine of the
    angle drawn by [random.uniform]) are arguments of the functions that use
    them.

    Object model.  Balls and colours are Python objects: they live in a store
    and are referred to by address.  The lists [balls] and [inventory] hold
    addresses, so that identity ([is], [id()]) and equality ([==], the
    dataclass-generated [__eq__]) are different things, as in the source. *)

From Stdlib Require Import ZArith QArith Qround Qabs Reals Qreals Psatz.
From stdpp Require Import base list.

Local Open Scope Q_scope.

(** ** Numbers *)

Definition Qltb (a b : Q) : bool := negb (Qle_bool b a).

(** [int(q)]: truncation toward zero. *)
Definition int_of (q : Q) : Z :=
  if Qltb q 0 then Qceiling q else Qfloor q.

(** A float value of the program: a rational, or the result of [math.sqrt]
    on a rational. *)
Inductive num : Type :=
  | Rat (q : Q)
  | Sqrt (q : Q).

(** [a < b] on such values. *)
Definition num_ltb (a b : num) : bool :=
  match a, b with
  | Rat p, Rat q => Qltb p q
  | Sqrt p, Rat q => Qltb 0 q && Qltb p (q * q)
  | Rat p, Sqrt q => Qltb p 0 || Qltb (p * p) q
  | Sqrt p, Sqrt q => Qltb p q
  end.



(** ** Color *)

Record Color : Type := mkColor { r : Z; g : Z; b : Z }.

(** [Color.__init__] *)
Definition Color_init (r0 g0 b0 : Z) : Color :=
  {| r := Z.max 0 (Z.min 255 r0);
     g := Z.max 0 (Z.min 255 g0);
     b := Z.max 0 (Z.min 255 b0) |}.

Definition to_tuple (c : Color) : Z * Z * Z := (r c, g c, b c).

(** ** Ball *)

Definition addr : Type := nat.

(** The [color] field is a reference to a [Color] object. *)
Record Ball : Type := mkBall {
  x : Q; y : Q; vx : Q; vy : Q; radius : Q; color : addr
}.

Definition set_x (v : Q) (o : Ball) : Ball :=
  mkBall v (y o) (vx o) (vy o) (radius o) (color o).
Definition set_y (v : Q) (o : Ball) : Ball :=
  mkBall (x o) v (vx o) (vy o) (radius o) (color o).
Definition set_vx (v : Q) (o : Ball) : Ball :=
  mkBall (x o) (y o) v (vy o) (radius o) (color o).
Definition set_vy (v : Q) (o : Ball) : Ball :=
  mkBall (x o) (y o) (vx o) v (radius o) (color o).
Definition set_color (c : addr) (o : Ball) : Ball :=
  mkBall (x o) (y o) (vx o) (vy o) (radius o) c.

(** [Ball.distance_to] *)
Definition distance_to (self other : Ball) : num :=
  let dx := x self - x other in
  let dy := y self - y other in
  Sqrt (dx * dx + dy * dy).

(** [Ball.is_colliding] *)
Definition is_colliding (self other : Ball) : bool :=
  let distance := distance_to self other in
  num_ltb distance (Rat (radius self + radius other)).

(** The [__eq__] that [@dataclass] generates for [Ball]: the fields are
    compared in order; floats by value, and the colour, whose class defines
    no [__eq__], by identity. *)
Definition Ball_eq (o1 o2 : Ball) : bool :=
  Qeq_bool (x o1) (x o2) && Qeq_bool (y o1) (y o2) &&
  Qeq_bool (vx o1) (vx o2) && Qeq_bool (vy o1) (vy o2) &&
  Qeq_bool (radius o1) (radius o2) && Nat.eqb (color o1) (color o2).

(** ** DeleteZone *)

Record DeleteZone : Type := mkZone {
  zx : Q; zy : Q; width : Q; height : Q
}.

(** [DeleteZone.contains] *)
Definition contains (z : DeleteZone) (ball : Ball) : bool :=
  (Qle_bool (zx z) (x ball) && Qle_bool (x ball) (zx z + width z)) &&
  (Qle_bool (zy z) (y ball) && Qle_bool (y ball) (zy z + height z)).

(** ** Colour mixing: [GameLogic._mix_colors] *)

Definition Qz (z : Z) : Q := inject_Z z.

(** The test of line 220, on the three channels. *)
Definition near_white (r0 g0 b0 : Z) : bool :=
  let avg := Qz (r0 + g0 + b0) / 3 in
  let variance :=
    Qabs (Qz r0 - avg) + Qabs (Qz g0 - avg) + Qabs (Qz b0 - avg) in
  Qltb variance 30 && Qltb 200 avg.

(** Lines 179-196: the brightness-weighted blend of one channel pair. *)
Definition blend (color1 color2 : Color) (ch : Color -> Z) : Z :=
  let brightness1 := Qz (r color1 + g color1 + b color1) / 3 in
  let brightness2 := Qz (r color2 + g color2 + b color2) / 3 in
  let total_brightness := brightness1 + brightness2 in
  let total_brightness :=
    if Qltb total_brightness (1#10) then 1#10 else total_brightness in
  let weight1 := brightness1 / total_brightness in
  let weight2 := brightness2 / total_brightness in
  int_of ((Qz (ch color1) * weight1 + Qz (ch color2) * weight2) * (8#10) +
          (Qz (ch color1 * ch color2) / 255) * (2#10)).

(** Lines 200-213: brighten a dark result, or boost the contrast. *)
Definition saturate (r0 g0 b0 : Z) : Z * Z * Z :=
  let max_component := Z.max (Z.max (Z.max r0 g0) b0) 1 in
  if (max_component <? 128)%Z then
    let scale := Qz 255 / Qz (Z.max max_component 1) in
    (Z.min 255 (int_of (Qz r0 * scale * (7#10))),
     Z.min 255 (int_of (Qz g0 * scale * (7#10))),
     Z.min 255 (int_of (Qz b0 * scale * (7#10))))
  else
    (Z.min 255 (int_of (Qz r0 * (11#10))),
     Z.min 255 (int_of (Qz g0 * (11#10))),
     Z.min 255 (int_of (Qz b0 * (11#10)))).

(** Lines 217-234: pull a washed-out result away from white. *)
Definition unwash (r0 g0 b0 : Z) : Z * Z * Z :=
  if near_white r0 g0 b0 then
    if (g0 <? r0)%Z && (b0 <? r0)%Z then
      (Z.min 255 (int_of (Qz r0 * (12#10))),
       Z.max 0 (int_of (Qz g0 * (7#10))),
       Z.max 0 (int_of (Qz b0 * (7#10))))
    else if (r0 <? g0)%Z && (b0 <? g0)%Z then
      (Z.max 0 (int_of (Qz r0 * (7#10))),
       Z.min 255 (int_of (Qz g0 * (12#10))),
       Z.max 0 (int_of (Qz b0 * (7#10))))
    else
      (Z.max 0 (int_of (Qz r0 * (7#10))),
       Z.max 0 (int_of (Qz g0 * (7#10))),
       Z.min 255 (int_of (Qz b0 * (12#10))))
  else (r0, g0, b0).

Definition _mix_colors (color1 color2 : Color) : Color :=
  let r0 := blend color1 color2 r in
  let g0 := blend color1 color2 g in
  let b0 := blend color1 color2 b in
  let '(r1, g1, b1) := saturate r0 g0 b0 in
  let '(r2, g2, b2) := unwash r1 g1 b1 in
  Color_init r2 g2 b2.

(** ** GameLogic and the object store *)

Record GameLogic : Type := mkGame {
  screen_width : Q;
  screen_height : Q;
  balls : list addr;
  inventory : list addr;
  delete_zone : DeleteZone;
  friction : Q;
  gravity : Q
}.

(** The store of [Ball] objects, the store of [Color] objects (never
    mutated once built), and the [GameLogic] instance. *)
Record World : Type := mkWorld {
  objs : list Ball;
  cols : list Color;
  game : GameLogic
}.

#[global] Instance Ball_inhabited : Inhabited Ball :=
  populate (mkBall 0 0 0 0 0 O).
#[global] Instance Color_inhabited : Inhabited Color :=
  populate (mkColor 0 0 0).

Definition with_balls (l : list addr) (w : World) : World :=
  let s := game w in
  mkWorld (objs w) (cols w)
    (mkGame (screen_width s) (screen_height s) l (inventory s)
            (delete_zone s) (friction s) (gravity s)).

Definition with_inventory (l : list addr) (w : World) : World :=
  let s := game w in
  mkWorld (objs w) (cols w)
    (mkGame (screen_width s) (screen_height s) (balls s) l
            (delete_zone s) (friction s) (gravity s)).

(** Assignment to the fields of the object at [a]. *)
Definition store (a : addr) (o : Ball) (w : World) : World :=
  mkWorld (<[a := o]> (objs w)) (cols w) (game w).

(** A new [Color] object; its address is returned. *)
Definition new_color (c : Color) (w : World) : addr * World :=
  (length (cols w), mkWorld (objs w) (cols w ++ [c]) (game w)).

(** A new [Ball] object. *)
Definition new_ball (o : Ball) (w : World) : addr * World :=
  (length (objs w), mkWorld (objs w ++ [o]) (cols w) (game w)).

(** [GameLogic.__init__] *)
Definition GameLogic_init (screen_width0 screen_height0 : Q) : GameLogic :=
  {| screen_width := screen_width0;
     screen_height := screen_height0;
     balls := [];
     inventory := [];
     delete_zone := mkZone (screen_width0 - 100) 0 100 100;
     friction := 98 # 100;
     gravity := 2 # 10 |}.

(** ** Python list search: [x in l] and [l.remove(x)]

    Both scan from the front and stop at the first item that is the object
    itself or compares equal to it. *)
Definition py_eq (st : list Ball) (a' a : addr) : bool :=
  Nat.eqb a' a || Ball_eq (st !!! a') (st !!! a).

Fixpoint list_index (st : list Ball) (a : addr) (l : list addr) : option nat :=
  match l with
  | [] => None
  | a' :: l' =>
      if py_eq st a' a then Some O else S <$> list_index st a l'
  end.

Definition list_contains (st : list Ball) (a : addr) (l : list addr) : bool :=
  match list_index st a l with Some _ => true | None => false end.

(** [None] stands for the [ValueError] of [list.remove]. *)
Definition list_remove (st : list Ball) (a : addr) (l : list addr)
  : option (list addr) :=
  match list_index st a l with
  | Some i => Some (delete i l)
  | None => None
  end.

(** ** Operations of [GameLogic] *)

(** [remove_ball]: [ball in self.balls] and [self.balls.remove(ball)] make
    the same scan, so the guard holds exactly when [list_remove] finds an
    item, and nothing happens otherwise. *)
Definition remove_ball (a : addr) (w : World) : World :=
  if list_contains (objs w) a (balls (game w)) then
    match list_remove (objs w) a (balls (game w)) with
    | Some l => with_balls l w
    | None => w
    end
  else w.

(** [add_ball]; [rnd] is the draw of [random.randint(50, 255)] for the three
    channels, used by [Ball.__post_init__] when no colour is given. *)
Definition add_ball (x0 y0 : Q) (color0 : option addr) (rnd : Z * Z * Z)
    (w : World) : addr * World :=
  let '(c, w) :=
    match color0 with
    | Some c => (c, w)
    | None => let '(r0, g0, b0) := rnd in new_color (Color_init r0 g0 b0) w
    end in
  let '(a, w) := new_ball (mkBall x0 y0 0 0 15 c) w in
  (a, with_balls (balls (game w) ++ [a]) w).

(** Lines 117-140: the body of the loop of [update] up to the wall
    collisions, on the fields of one ball. *)
Definition move_ball (self : GameLogic) (dt : Q) (ball : Ball) : Ball :=
  let ball := set_x (x ball + vx ball * dt) ball in
  let ball := set_y (y ball + vy ball * dt) ball in
  let ball := set_vy (vy ball + gravity self * dt) ball in
  let ball := set_vx (vx ball * friction self) ball in
  let ball := set_vy (vy ball * friction self) ball in
  let ball :=
    if Qltb (x ball - radius ball) 0 then
      set_vx (- vx ball * (7#10)) (set_x (radius ball) ball)
    else if Qltb (screen_width self) (x ball + radius ball) then
      set_vx (- vx ball * (7#10)) (set_x (screen_width self - radius ball) ball)
    else ball in
  let ball :=
    if Qltb (y ball - radius ball) 0 then
      set_vy (- vy ball * (7#10)) (set_y (radius ball) ball)
    else if Qltb (screen_height self) (y ball + radius ball) then
      set_vy (- vy ball * (7#10)) (set_y (screen_height self - radius ball) ball)
    else ball in
  ball.

(** Lines 117-144: one run of the loop body, on the ball at [a]. *)
Definition step_ball (dt : Q) (a : addr) (w : World) : World :=
  let ball := move_ball (game w) dt (objs w !!! a) in
  let w := store a ball w in
  if contains (delete_zone (game w)) ball then remove_ball a w else w.

(** [for ball in self.balls: ...] of [update].  A Python list iterator keeps
    an index into the live list: each round reads [balls[i]] from the list
    as it is now and then advances [i]; it stops when [i] is past the end.
    The second component lists the balls the body ran on, in order. *)
Fixpoint update_loop (dt : Q) (fuel i : nat) (w : World) : World * list addr :=
  match fuel with
  | O => (w, [])
  | S fuel' =>
      match balls (game w) !! i with
      | None => (w, [])
      | Some a =>
          let '(w', t) := update_loop dt fuel' (S i) (step_ball dt a w) in
          (w', a :: t)
      end
  end.

(** [tuple(sorted([id(ball1), id(ball2)]))] *)
Definition pair_id (a1 a2 : addr) : addr * addr :=
  (Nat.min a1 a2, Nat.max a1 a2).

(** Lines 155-165: the body of the inner loop of [_handle_ball_collisions]. *)
Definition collide (a1 a2 : addr) (st : World * list (addr * addr))
  : World * list (addr * addr) :=
  let '(w, processed_pairs) := st in
  if is_colliding (objs w !!! a1) (objs w !!! a2) then
    if bool_decide (pair_id a1 a2 ∈ processed_pairs) then st
    else
      let '(c, w) :=
        new_color (_mix_colors (cols w !!! color (objs w !!! a1))
                               (cols w !!! color (objs w !!! a2))) w in
      let w := store a1 (set_color c (objs w !!! a1)) w in
      let w := store a2 (set_color c (objs w !!! a2)) w in
      (w, pair_id a1 a2 :: processed_pairs)
  else st.

(** The two nested loops: each ball against the balls after it. *)
Fixpoint collide_all (l : list addr) (st : World * list (addr * addr))
  : World * list (addr * addr) :=
  match l with
  | [] => st
  | a1 :: rest => collide_all rest (foldl (fun st a2 => collide a1 a2 st) st rest)
  end.

Definition _handle_ball_collisions (w : World) : World :=
  fst (collide_all (balls (game w)) (w, [])).

(** The balls are advanced first; the loop needs at most one round per ball
    of the list it starts from. *)
Definition update_balls (dt : Q) (w : World) : World :=
  fst (update_loop dt (length (balls (game w))) 0 w).

(** The balls the loop body of [update] runs on. *)
Definition stepped (dt : Q) (w : World) : list addr :=
  snd (update_loop dt (length (balls (game w))) 0 w).

(** [GameLogic.update] *)
Definition update (dt : Q) (w : World) : World :=
  _handle_ball_collisions (update_balls dt w).

(** Outcome of a call that may raise. *)
Inductive result (A : Type) : Type :=
  | Returned (v : A)
  | ValueError.
Arguments Returned {A} v.
Arguments ValueError {A}.

(** Lines 250-260: the scan of [suck_ball]. *)
Definition closest (mouse_x mouse_y : Q) (st : list Ball)
    (acc : option addr * num) (a : addr) : option addr * num :=
  let '(closest_ball, min_distance) := acc in
  let ball := st !!! a in
  let dx := x ball - mouse_x in
  let dy := y ball - mouse_y in
  let distance := Sqrt (dx * dx + dy * dy) in
  if num_ltb distance min_distance then (Some a, distance)
  else (closest_ball, min_distance).

(** [GameLogic.suck_ball] *)
Definition suck_ball (mouse_x mouse_y suck_radius : Q) (w : World)
  : result (option addr * World) :=
  let '(closest_ball, _) :=
    foldl (closest mouse_x mouse_y (objs w)) (None, Rat suck_radius)
          (balls (game w)) in
  match closest_ball with
  | Some a =>
      match list_remove (objs w) a (balls (game w)) with
      | Some l =>
          let w := with_balls l w in
          let w := with_inventory (inventory (game w) ++ [a]) w in
          Returned (Some a, w)
      | None => ValueError
      end
  | None => Returned (None, w)
  end.

(** [GameLogic.spit_ball]; [cos_angle] and [sin_angle] are the values of
    [math.cos(angle)] and [math.sin(angle)] for the angle drawn by
    [random.uniform]. *)
Definition spit_ball (mouse_x mouse_y velocity : Q) (cos_angle sin_angle : Q)
    (w : World) : option addr * World :=
  match last (inventory (game w)) with
  | None => (None, w)
  | Some a =>
      let w := with_inventory (removelast (inventory (game w))) w in
      let ball := objs w !!! a in
      let ball := set_x mouse_x ball in
      let ball := set_y mouse_y ball in
      let ball := set_vx (cos_angle * velocity) ball in
      let ball := set_vy (sin_angle * velocity) ball in
      let w := store a ball w in
      let w := with_balls (balls (game w) ++ [a]) w in
      (Some a, w)
  end.

(** [GameLogic.set_screen_size] *)
Definition set_screen_size (width0 height0 : Q) (w : World) : World :=
  let s := game w in
  mkWorld (objs w) (cols w)
    (mkGame width0 height0 (balls s) (inventory s)
            (mkZone (width0 - 100) 0 100 100) (friction s) (gravity s)).

(** Euclidean distance between the centres of two balls, as a real number. *)
Definition euclid (o1 o2 : Ball) : R :=
  sqrt ((Q2R (x o1) - Q2R (x o2))² + (Q2R (y o1) - Q2R (y o2))²).

(** The near-white test of [_mix_colors], read on a colour. *)
Definition washed_out (c : Color) : bool := near_white (r c) (g c) (b c).

(** ** Vocabulary of the statements *)



(** The ownership invariant of the data model: every ball of the game is an
    object of the store with a colour of the store, and is held exactly once,
    by [balls] or by [inventory]. *)
Definition wf (w : World) : Prop :=
  NoDup (balls (game w) ++ inventory (game w)) /\
  forall a, a ∈ balls (game w) ++ inventory (game w) ->
    (a < length (objs w))%nat /\
    (color (objs w !!! a) < length (cols w))%nat.



(** What a call of the game may change: [w'] comes after [w] when the
    configuration and the inventory are the same, no ball joined [balls], no
    object was created or resized, the objects outside [balls] are untouched
    and the colour store only grew. *)
Record evolves (w w' : World) : Prop := mkEvolves {
  ev_inventory : inventory (game w') = inventory (game w);
  ev_width : screen_width (game w') = screen_width (game w);
  ev_height : screen_height (game w') = screen_height (game w);
  ev_zone : delete_zone (game w') = delete_zone (game w);
  ev_friction : friction (game w') = friction (game w);
  ev_gravity : gravity (game w') = gravity (game w);
  ev_balls : balls (game w') `sublist_of` balls (game w);
  ev_length : length (objs w') = length (objs w);
  ev_others : forall a, a ∉ balls (game w) -> objs w' !!! a = objs w !!! a;
  ev_radius : forall a, radius (objs w' !!! a) = radius (objs w !!! a);
  ev_cols : cols w `prefix_of` cols w';
  ev_color : forall a, (color (objs w !!! a) < length (cols w))%nat ->
                       (color (objs w' !!! a) < length (cols w'))%nat
}.

(** ** Auxiliary notions of the proofs *)

(** The two objects have the same position, velocity and radius. *)
Definition same_motion (o o' : Ball) : Prop :=
  x o' = x o /\ y o' = y o /\ vx o' = vx o /\ vy o' = vy o /\
  radius o' = radius o.

(** What the collision pass may change: colours only. *)
Definition recolours (w w' : World) : Prop :=
  game w' = game w /\
  forall a, same_motion (objs w !!! a) (objs w' !!! a).


(** [wf], as a test that can be run on a concrete world. *)
Definition wf_check (w : World) : bool :=
  bool_decide (NoDup (balls (game w) ++ inventory (game w))) &&
  forallb (fun a => Nat.ltb a (length (objs w)) &&
                    Nat.ltb (color (objs w !!! a)) (length (cols w)))
          (balls (game w) ++ inventory (game w)).

(** Squared distance from the centre of a ball to a point. *)
Definition mouse_d2 (mouse_x mouse_y : Q) (o : Ball) : Q :=
  (x o - mouse_x) * (x o - mouse_x) + (y o - mouse_y) * (y o - mouse_y).

(** What the scan of [suck_ball] holds after the balls of [l]: nothing in
    reach so far, or the first of the nearest balls in reach. *)
Definition scan_ok (mouse_x mouse_y suck_radius : Q) (st : list Ball)
    (l : list addr) (acc : option addr * num) : Prop :=
  match acc with
  | (None, md) =>
      md = Rat suck_radius /\
      forall a, a ∈ l ->
        num_ltb (Sqrt (mouse_d2 mouse_x mouse_y (st !!! a))) (Rat suck_radius) = false
  | (Some c, md) =>
      md = Sqrt (mouse_d2 mouse_x mouse_y (st !!! c)) /\
      num_ltb md (Rat suck_radius) = true /\
      exists k, l !! k = Some c /\
        forall j a, l !! j = Some a ->
          mouse_d2 mouse_x mouse_y (st !!! c) <= mouse_d2 mouse_x mouse_y (st !!! a) /\
          ((j < k)%nat ->
           mouse_d2 mouse_x mouse_y (st !!! c) < mouse_d2 mouse_x mouse_y (st !!! a))
  end.

(** ** Example worlds *)

(** Two moving or resting balls on the screen, the second one inside the
    delete zone, and a third ball stashed in the inventory. *)
Definition w_inv : World :=
  mkWorld [mkBall 100 100 3 0 15 0%nat; mkBall 750 50 0 0 15 1%nat;
           mkBall 5 5 1 1 15 0%nat]
          [mkColor 200 30 30; mkColor 30 30 200]
          (mkGame 800 600 [0%nat; 1%nat] [2%nat] (mkZone 700 0 100 100)
                  (98 # 100) (2 # 10)).


(** [game = GameLogic(); c = Color(10, 20, 30);
     t = game.add_ball(100, 100, c); b = game.add_ball(100, 100, c)] *)
Definition w_twins : World :=
  let w := mkWorld [] [Color_init 10 20 30] (GameLogic_init 800 600) in
  let w := snd (add_ball 100 100 (Some 0%nat) (0, 0, 0)%Z w) in
  snd (add_ball 100 100 (Some 0%nat) (0, 0, 0)%Z w).

(** [game = GameLogic(); game.add_ball(750, 50, Color(200, 0, 0));
     game.add_ball(100, 100, Color(0, 0, 200))] *)
Definition w_skip : World :=
  let w := mkWorld [] [Color_init 200 0 0; Color_init 0 0 200]
                   (GameLogic_init 800 600) in
  let w := snd (add_ball 750 50 (Some 0%nat) (0, 0, 0)%Z w) in
  snd (add_ball 100 100 (Some 1%nat) (0, 0, 0)%Z w).

(** [game = GameLogic(); c = Color(10, 20, 30);
     game.add_ball(750, 50, Color(200, 0, 0));
     t = game.add_ball(750, 90, c); b = game.add_ball(750, 90, c);
     game.add_ball(750, 110, Color(0, 0, 200))] *)
Definition w_cull : World :=
  let w := mkWorld [] [Color_init 200 0 0; Color_init 10 20 30; Color_init 0 0 200]
                   (GameLogic_init 800 600) in
  let w := snd (add_ball 750 50 (Some 0%nat) (0, 0, 0)%Z w) in
  let w := snd (add_ball 750 90 (Some 1%nat) (0, 0, 0)%Z w) in
  let w := snd (add_ball 750 90 (Some 1%nat) (0, 0, 0)%Z w) in
  snd (add_ball 750 110 (Some 2%nat) (0, 0, 0)%Z w).


(** ** The remaining accessors of the source *)

(** [Ball.get_position] *)
Definition get_position (self : Ball) : Q * Q := (x self, y self).



(** [GameLogic.get_inventory_size] *)
Definition get_inventory_size (w : World) : nat :=
  length (inventory (game w)).

(** [GameLogic.clear_inventory] *)
Definition clear_inventory (w : World) : World := with_inventory [] w.

(** A colour as [Color.__init__] leaves it: every channel in [0, 255]. *)
Definition valid_color (c : Color) : Prop :=
  (0 <= r c <= 255)%Z /\ (0 <= g c <= 255)%Z /\ (0 <= b c <= 255)%Z.

(** The worlds a driver can reach through the constructors and the methods
    of [GameLogic]: it may build [Color] objects, and it passes to
    [add_ball] either no colour or a colour object that exists. *)
Inductive reachable : World -> Prop :=
  | reach_init (screen_width0 screen_height0 : Q) :
      reachable (mkWorld [] [] (GameLogic_init screen_width0 screen_height0))
  | reach_color (r0 g0 b0 : Z) (w : World) :
      reachable w -> reachable (snd (new_color (Color_init r0 g0 b0) w))
  | reach_add_ball (x0 y0 : Q) (color0 : option addr) (rnd : Z * Z * Z) (w : World) :
      reachable w ->
      (forall c, color0 = Some c -> (c < length (cols w))%nat) ->
      reachable (snd (add_ball x0 y0 color0 rnd w))
  | reach_remove_ball (a : addr) (w : World) :
      reachable w -> reachable (remove_ball a w)
  | reach_update (dt : Q) (w : World) :
      reachable w -> reachable (update dt w)
  | reach_suck_ball (mouse_x mouse_y suck_radius : Q) (w w' : World)
      (res : option addr) :
      reachable w ->
      suck_ball mouse_x mouse_y suck_radius w = Returned (res, w') ->
      reachable w'
  | reach_spit_ball (mouse_x mouse_y velocity cos_angle sin_angle : Q) (w : World) :
      reachable w ->
      reachable (snd (spit_ball mouse_x mouse_y velocity cos_angle sin_angle w))
  | reach_clear_inventory (w : World) :
      reachable w -> reachable (clear_inventory w)
  | reach_set_screen_size (width0 height0 : Q) (w : World) :
      reachable w -> reachable (set_screen_size width0 height0 w).

(** [w_twins] after [game.suck_ball(100, 100)], once and twice. *)
Definition w_twins_1 : World :=
  match suck_ball 100 100 50 w_twins with
  | Returned (_, w) => w
  | ValueError => w_twins
  end.

Definition w_twins_2 : World :=
  match suck_ball 100 100 50 w_twins_1 with
  | Returned (_, w) => w
  | ValueError => w_twins_1
  end.

(** [game = GameLogic(); game.add_ball(100, 100); game.update(1)], the
    colour drawn being (60, 70, 80). *)
Definition w_reach : World :=
  update 1 (snd (add_ball 100 100 None (60, 70, 80)%Z
                   (mkWorld [] [] (GameLogic_init 800 600)))).

(** * Properties *)

(** ** Numbers *)

Lemma Qltb_lt a b : Qltb a b = true <-> a < b.
Proof.
  unfold Qltb. rewrite negb_true_iff, <- not_true_iff_false, Qle_bool_iff.
  split; [apply Qnot_le_lt | apply Qlt_not_le].
Qed.

Lemma Qltb_ge a b : Qltb a b = false <-> b <= a.
Proof.
  unfold Qltb. rewrite negb_false_iff. apply Qle_bool_iff.
Qed.

#[global] Instance Qltb_comp : Proper (Qeq ==> Qeq ==> eq) Qltb.
Proof. intros a a' Ha b b' Hb. unfold Qltb. now rewrite Ha, Hb. Qed.

#[global] Instance int_of_comp : Proper (Qeq ==> eq) int_of.
Proof.
  intros p q Hpq. unfold int_of.
  rewrite (Qltb_comp p q Hpq 0 0 (Qeq_refl 0)).
  destruct (Qltb q 0); [apply Qceiling_comp | apply Qfloor_comp]; exact Hpq.
Qed.








(** ** Ball: distance and collision test *)




(** ** Colour mixing *)


Lemma near_white_Z (r0 g0 b0 : Z) :
  near_white r0 g0 b0 = true <->
  (Z.abs (3 * r0 - (r0 + g0 + b0)) + Z.abs (3 * g0 - (r0 + g0 + b0)) +
   Z.abs (3 * b0 - (r0 + g0 + b0)) < 90 /\ 600 < r0 + g0 + b0)%Z.
Proof.
  unfold near_white. rewrite andb_true_iff, !Qltb_lt.
  unfold Qlt, Qabs, Qminus, Qplus, Qdiv, Qmult, Qinv, Qopp, Qz, inject_Z.
  cbn [Qnum Qden]. rewrite ?Pos2Z.inj_mul.

  lia.
Qed.

Lemma near_white_false_Z (r0 g0 b0 : Z) :
  near_white r0 g0 b0 = false <->
  (90 <= Z.abs (3 * r0 - (r0 + g0 + b0)) + Z.abs (3 * g0 - (r0 + g0 + b0)) +
         Z.abs (3 * b0 - (r0 + g0 + b0)) \/ r0 + g0 + b0 <= 600)%Z.
Proof.
  rewrite <- not_true_iff_false, near_white_Z. lia.
Qed.

(** [int] of a non-negative integer times a constant fraction. *)
Lemma int_of_scale (z : Z) (n d : positive) :
  (0 <= z)%Z -> int_of (Qz z * (Zpos n # d)) = (z * Zpos n / Zpos d)%Z.
Proof.
  intros Hz. unfold int_of.
  assert (H : Qltb (Qz z * (Zpos n # d)) 0 = false).
  { apply Qltb_ge. unfold Qle, Qmult, Qz, inject_Z. cbn [Qnum Qden]. nia. }
  rewrite H. unfold Qfloor, Qmult, Qz, inject_Z. cbn [Qnum Qden].
  reflexivity.
Qed.

Lemma boost_bounds (z : Z) :
  (171 <= z <= 255)%Z -> (205 <= Z.min 255 (z * 12 / 10) <= 255)%Z.
Proof. intros H. Z.to_euclidean_division_equations. lia. Qed.

Lemma suppress_bounds (z : Z) :
  (0 <= z <= 255)%Z -> (0 <= Z.max 0 (z * 7 / 10) <= 178)%Z.
Proof. intros H. Z.to_euclidean_division_equations. lia. Qed.

Lemma unwash_not_near_white (r0 g0 b0 : Z) :
  (r0 <= 255)%Z -> (g0 <= 255)%Z -> (b0 <= 255)%Z ->
  let '(r2, g2, b2) := unwash r0 g0 b0 in
  washed_out (Color_init r2 g2 b2) = false.
Proof.
  intros Hr Hg Hb. unfold unwash, washed_out.
  destruct (near_white r0 g0 b0) eqn:E.
  - apply near_white_Z in E.
    assert (171 <= r0 /\ 171 <= g0 /\ 171 <= b0)%Z as (Hr0 & Hg0 & Hb0) by lia.
    rewrite !int_of_scale by lia.
    pose proof (boost_bounds r0 ltac:(lia)) as Br.
    pose proof (boost_bounds g0 ltac:(lia)) as Bg.
    pose proof (boost_bounds b0 ltac:(lia)) as Bb.
    pose proof (suppress_bounds r0 ltac:(lia)) as Sr.
    pose proof (suppress_bounds g0 ltac:(lia)) as Sg.
    pose proof (suppress_bounds b0 ltac:(lia)) as Sb.
    revert Br Bg Bb Sr Sg Sb.
    generalize (Z.min 255 (r0 * 12 / 10)) (Z.min 255 (g0 * 12 / 10))
               (Z.min 255 (b0 * 12 / 10)) (Z.max 0 (r0 * 7 / 10))
               (Z.max 0 (g0 * 7 / 10)) (Z.max 0 (b0 * 7 / 10)).
    intros br bg bb sr sg sb Br Bg Bb Sr Sg Sb.
    destruct (_ && _); [| destruct (_ && _)];
      unfold Color_init; cbn [r g b]; apply near_white_false_Z; lia.
  - apply near_white_false_Z in E.
    unfold Color_init; cbn [r g b]; apply near_white_false_Z; lia.
Qed.

Lemma saturate_le_255 (r0 g0 b0 : Z) :
  let '(r1, g1, b1) := saturate r0 g0 b0 in
  (r1 <= 255 /\ g1 <= 255 /\ b1 <= 255)%Z.
Proof.
  unfold saturate. destruct (_ <? 128)%Z; lia.
Qed.

(** C4: the colour returned by [_mix_colors] never passes the near-white test
    ([variance < 30] and [avg > 200]); in particular the mix of (200,200,200)
    and (210,210,210), which is (151,151,255), fails it. *)
Theorem mix_colors_not_washed_out :
  (forall c1 c2 : Color, washed_out (_mix_colors c1 c2) = false) /\
  to_tuple (_mix_colors (Color_init 200 200 200) (Color_init 210 210 210))
    = (151, 151, 255)%Z /\
  washed_out (_mix_colors (Color_init 200 200 200) (Color_init 210 210 210))
    = false.
Proof.
  split; [| split; reflexivity].
  intros c1 c2. unfold _mix_colors.
  pose proof (saturate_le_255 (blend c1 c2 r) (blend c1 c2 g) (blend c1 c2 b)) as H.
  destruct (saturate _ _ _) as [[r1 g1] b1]. destruct H as (Hr & Hg & Hb).
  pose proof (unwash_not_near_white r1 g1 b1 Hr Hg Hb) as H.
  destruct (unwash r1 g1 b1) as [[r2 g2] b2]. exact H.
Qed.

Lemma blend_comm (c1 c2 : Color) (ch : Color -> Z) :
  blend c1 c2 ch = blend c2 c1 ch.
Proof.
  unfold blend.
  set (b1 := Qz (r c1 + g c1 + b c1) / 3).
  set (b2 := Qz (r c2 + g c2 + b c2) / 3).
  set (t := if Qltb (b1 + b2) (1 # 10) then 1 # 10 else b1 + b2).
  set (t' := if Qltb (b2 + b1) (1 # 10) then 1 # 10 else b2 + b1).
  assert (Ht : t' == t).
  { unfold t, t'. rewrite (Qltb_comp _ _ (Qplus_comm b2 b1) _ _ (Qeq_refl _)).
    destruct (Qltb (b1 + b2) (1 # 10)); [reflexivity | apply Qplus_comm]. }
  apply int_of_comp. rewrite (Z.mul_comm (ch c2) (ch c1)), Ht.
  unfold Qdiv. ring.
Qed.

(** C9: [_mix_colors] is commutative: both argument orders give the same
    (r, g, b). *)
Theorem mix_colors_comm (c1 c2 : Color) :
  to_tuple (_mix_colors c1 c2) = to_tuple (_mix_colors c2 c1).
Proof.
  unfold _mix_colors. now rewrite !(blend_comm c1 c2).
Qed.

(** ** List search and [remove_ball] *)

Section list_search.
Variable st : list Ball.
Variable a : addr.

Lemma list_index_lookup (l : list addr) (i : nat) :
  list_index st a l = Some i ->
  exists a', l !! i = Some a' /\ py_eq st a' a = true.
Proof.
  revert i. induction l as [| a0 l IH]; intros i; cbn [list_index].
  - discriminate.
  - destruct (py_eq st a0 a) eqn:E.
    + intros [= <-]. eauto.
    + destruct (list_index st a l) as [k |]; [| discriminate].
      intros [= <-]. apply (IH k eq_refl).
Qed.

(** The scan stops at the first match. *)
Lemma list_index_first (l : list addr) (k : nat) (a' : addr) :
  l !! k = Some a' -> py_eq st a' a = true ->
  (forall j a'', (j < k)%nat -> l !! j = Some a'' -> py_eq st a'' a = false) ->
  list_index st a l = Some k.
Proof.
  revert k. induction l as [| a0 l IH]; intros k Hk Heq Hbefore.
  - discriminate.
  - cbn [list_index]. destruct k as [| k].
    + injection Hk as ->. now rewrite Heq.
    + rewrite (Hbefore O a0) by (lia || reflexivity).
      rewrite (IH k); [reflexivity | exact Hk | exact Heq |].
      intros j a'' Hj Hl. apply (Hbefore (S j) a''); [lia | exact Hl].
Qed.

Lemma list_index_None (l : list addr) :
  list_index st a l = None -> forall a', a' ∈ l -> py_eq st a' a = false.
Proof.
  induction l as [| a0 l IH]; cbn [list_index]; intros H a' Hin.
  - inversion Hin.
  - destruct (py_eq st a0 a) eqn:E; [discriminate |].
    destruct (list_index st a l); [discriminate |].
    apply elem_of_cons in Hin as [-> | Hin]; [exact E | now apply IH].
Qed.

Lemma list_remove_delete (l l' : list addr) :
  list_remove st a l = Some l' -> exists i, (i < length l)%nat /\ l' = delete i l.
Proof.
  unfold list_remove. destruct (list_index st a l) as [i |] eqn:E; [| discriminate].
  intros [= <-]. exists i. split; [| reflexivity].
  apply list_index_lookup in E as (a' & Hl & _). eapply lookup_lt_Some, Hl.
Qed.
End list_search.

Lemma py_eq_refl (st : list Ball) (a : addr) : py_eq st a a = true.
Proof. unfold py_eq. now rewrite Nat.eqb_refl. Qed.

(** Outcome of [remove_ball] on the list: one position is deleted, or
    nothing changes. *)
Lemma remove_ball_balls (a : addr) (w : World) :
  (exists i, (i < length (balls (game w)))%nat /\
             remove_ball a w = with_balls (delete i (balls (game w))) w) \/
  remove_ball a w = w.
Proof.
  unfold remove_ball. destruct (list_contains _ _ _); [| now right].
  destruct (list_remove _ _ _) as [l |] eqn:E; [left | now right].
  apply list_remove_delete in E as (i & Hi & ->). eauto.
Qed.

(** Without an equal twin in front of it, the ball itself goes. *)
Lemma remove_ball_no_twin (a : addr) (w : World) (k : nat) :
  balls (game w) !! k = Some a ->
  (forall j a', (j < k)%nat -> balls (game w) !! j = Some a' ->
                py_eq (objs w) a' a = false) ->
  remove_ball a w = with_balls (delete k (balls (game w))) w.
Proof.
  intros Hk Hbefore. unfold remove_ball, list_contains, list_remove.
  now rewrite (list_index_first (objs w) a _ k a Hk (py_eq_refl _ _) Hbefore).
Qed.

(** ** What [update] may change *)

Lemma evolves_refl (w : World) : evolves w w.
Proof. split; auto. Qed.

Lemma evolves_trans (w1 w2 w3 : World) :
  evolves w1 w2 -> evolves w2 w3 -> evolves w1 w3.
Proof.
  intros H12 H23. split.
  - rewrite (ev_inventory _ _ H23). apply H12.
  - rewrite (ev_width _ _ H23). apply H12.
  - rewrite (ev_height _ _ H23). apply H12.
  - rewrite (ev_zone _ _ H23). apply H12.
  - rewrite (ev_friction _ _ H23). apply H12.
  - rewrite (ev_gravity _ _ H23). apply H12.
  - etrans; [apply H23 | apply H12].
  - rewrite (ev_length _ _ H23). apply H12.
  - intros a Ha. rewrite (ev_others _ _ H23), (ev_others _ _ H12); [done | done |].
    intros Hin. apply Ha. eapply elem_of_sublist; [exact Hin | apply H12].
  - intros a. rewrite (ev_radius _ _ H23). apply H12.
  - etrans; [apply H12 | apply H23].
  - intros a Ha. apply H23, H12, Ha.
Qed.

#[global] Instance evolves_preorder : PreOrder evolves.
Proof. split; [exact evolves_refl | exact evolves_trans]. Qed.

(** Reading the store after an assignment. *)
Lemma store_lookup (a a' : addr) (o : Ball) (w : World) :
  objs (store a o w) !!! a' =
  if decide (a = a' /\ (a < length (objs w))%nat) then o else objs w !!! a'.
Proof.
  cbn [store objs]. case_decide as H.
  - destruct H as [<- H]. now apply list_lookup_total_insert_eq.
  - destruct (decide (a = a')) as [<- | Hne].
    + rewrite list_insert_ge; [reflexivity | lia].
    + now apply list_lookup_total_insert_ne.
Qed.

Lemma store_evolves (a : addr) (o : Ball) (w : World) :
  a ∈ balls (game w) ->
  radius o = radius (objs w !!! a) ->
  ((color (objs w !!! a) < length (cols w))%nat -> (color o < length (cols w))%nat) ->
  evolves w (store a o w).
Proof.
  intros Ha Hr Hc. split; cbn [store game cols]; try done.
  - cbn [objs]. apply length_insert.
  - intros a' Ha'. rewrite store_lookup. case_decide as H; [| done].
    destruct H as [<- _]. contradiction.
  - intros a'. rewrite store_lookup. case_decide as H; [| done].
    destruct H as [<- _]. exact Hr.
  - intros a'. rewrite store_lookup. case_decide as H; [| done].
    destruct H as [<- _]. exact Hc.
Qed.

Lemma with_balls_evolves (l : list addr) (w : World) :
  l `sublist_of` balls (game w) -> evolves w (with_balls l w).
Proof. intros H. split; cbn [with_balls game objs cols]; done. Qed.

Lemma remove_ball_evolves (a : addr) (w : World) : evolves w (remove_ball a w).
Proof.
  destruct (remove_ball_balls a w) as [(i & _ & ->) | ->].
  - apply with_balls_evolves, sublist_delete.
  - reflexivity.
Qed.

Lemma new_color_evolves (c : Color) (w : World) : evolves w (snd (new_color c w)).
Proof.
  split; cbn [new_color snd game objs cols]; try done.
  - now apply prefix_app_r.
  - intros a Ha. rewrite length_app. lia.
Qed.

Lemma move_ball_radius (self : GameLogic) (dt : Q) (ball : Ball) :
  radius (move_ball self dt ball) = radius ball.
Proof.
  unfold move_ball. repeat (destruct (Qltb _ _)); reflexivity.
Qed.

Lemma move_ball_color (self : GameLogic) (dt : Q) (ball : Ball) :
  color (move_ball self dt ball) = color ball.
Proof.
  unfold move_ball. repeat (destruct (Qltb _ _)); reflexivity.
Qed.

Lemma step_ball_evolves (dt : Q) (a : addr) (w : World) :
  a ∈ balls (game w) -> evolves w (step_ball dt a w).
Proof.
  intros Ha. unfold step_ball.
  set (ball := move_ball (game w) dt (objs w !!! a)).
  assert (H : evolves w (store a ball w)).
  { apply store_evolves; [exact Ha | apply move_ball_radius |].
    unfold ball. now rewrite move_ball_color. }
  destruct (contains _ ball); [| exact H].
  etrans; [exact H | apply remove_ball_evolves].
Qed.

Lemma update_loop_evolves (dt : Q) (fuel i : nat) (w : World) :
  evolves w (fst (update_loop dt fuel i w)).
Proof.
  revert i w. induction fuel as [| fuel IH]; intros i w; cbn [update_loop].
  - reflexivity.
  - destruct (balls (game w) !! i) as [a |] eqn:E; [| reflexivity].
    specialize (IH (S i) (step_ball dt a w)).
    destruct (update_loop dt fuel (S i) (step_ball dt a w)) as [w' t].
    cbn [fst] in *. etrans; [| exact IH].
    apply step_ball_evolves. eapply list_elem_of_lookup_2, E.
Qed.

(** ** The collision pass *)

Lemma recolours_refl (w : World) : recolours w w.
Proof. split; [done |]. intros a. repeat split. Qed.

Lemma recolours_trans (w1 w2 w3 : World) :
  recolours w1 w2 -> recolours w2 w3 -> recolours w1 w3.
Proof.
  intros [Hg1 H1] [Hg2 H2]. split; [congruence |].
  intros a. destruct (H1 a) as (? & ? & ? & ? & ?), (H2 a) as (? & ? & ? & ? & ?).
  repeat split; congruence.
Qed.

Lemma store_set_color_recolours (a c : addr) (w : World) :
  recolours w (store a (set_color c (objs w !!! a)) w).
Proof.
  split; [done |]. intros a'. rewrite store_lookup.
  case_decide as H; [destruct H as [<- _] |]; repeat split.
Qed.

Lemma collide_recolours (a1 a2 : addr) (st : World * list (addr * addr)) :
  recolours (fst st) (fst (collide a1 a2 st)).
Proof.
  destruct st as [w p]. unfold collide. cbn [fst].
  destruct (is_colliding _ _); [| apply recolours_refl].
  case_bool_decide; [apply recolours_refl |].
  cbn [new_color fst].
  set (w1 := mkWorld (objs w) (cols w ++ _) (game w)).
  eapply recolours_trans; [| apply store_set_color_recolours].
  eapply recolours_trans; [| apply store_set_color_recolours].
  split; [done |]. intros a. repeat split.
Qed.

Lemma collide_evolves (a1 a2 : addr) (st : World * list (addr * addr)) :
  a1 ∈ balls (game (fst st)) -> a2 ∈ balls (game (fst st)) ->
  evolves (fst st) (fst (collide a1 a2 st)).
Proof.
  destruct st as [w p]. unfold collide. cbn [fst]. intros H1 H2.
  destruct (is_colliding _ _); [| reflexivity].
  case_bool_decide; [reflexivity |].
  pose proof (new_color_evolves
    (_mix_colors (cols w !!! color (objs w !!! a1))
                 (cols w !!! color (objs w !!! a2))) w) as Hn.
  cbn [new_color fst snd] in *.
  set (w1 := mkWorld (objs w) (cols w ++ _) (game w)) in *.
  etrans; [exact Hn |].
  assert (Hs : forall a (w' : World),
             a ∈ balls (game w') -> length (cols w') = S (length (cols w)) ->
             evolves w' (store a (set_color (length (cols w)) (objs w' !!! a)) w')).
  { intros a w' Ha Hl. apply store_evolves; [exact Ha | reflexivity |].
    cbn [set_color color]. lia. }
  assert (Hl : length (cols w1) = S (length (cols w))).
  { unfold w1. cbn [cols]. rewrite length_app. cbn [length]. lia. }
  etrans; [apply Hs | apply Hs]; done.
Qed.

Lemma foldl_collide (a1 : addr) (l : list addr) (st : World * list (addr * addr)) :
  a1 ∈ balls (game (fst st)) -> l ⊆ balls (game (fst st)) ->
  let st' := foldl (fun st a2 => collide a1 a2 st) st l in
  evolves (fst st) (fst st') /\ recolours (fst st) (fst st').
Proof.
  revert st. induction l as [| a2 l IH]; intros st H1 Hl; cbn [foldl].
  - split; [reflexivity | apply recolours_refl].
  - pose proof (collide_recolours a1 a2 st) as Hr.
    assert (a2 ∈ balls (game (fst st))) as H2 by (apply Hl; left).
    pose proof (collide_evolves a1 a2 st H1 H2) as He.
    destruct (IH (collide a1 a2 st)) as [He' Hr'].
    + now rewrite (proj1 Hr).
    + rewrite (proj1 Hr). intros a Ha. apply Hl. now right.
    + split; [etrans; eassumption | eapply recolours_trans; eassumption].
Qed.

Lemma collide_all_spec (l : list addr) (st : World * list (addr * addr)) :
  l ⊆ balls (game (fst st)) ->
  evolves (fst st) (fst (collide_all l st)) /\
  recolours (fst st) (fst (collide_all l st)).
Proof.
  revert st. induction l as [| a1 l IH]; intros st Hl; cbn [collide_all].
  - split; [reflexivity | apply recolours_refl].
  - destruct (foldl_collide a1 l st) as [He Hr].
    + apply Hl. left.
    + intros a Ha. apply Hl. now right.
    + cbn zeta in He, Hr.
      destruct (IH (foldl (fun st a2 => collide a1 a2 st) st l)) as [He' Hr'].
      * rewrite (proj1 Hr). intros a Ha. apply Hl. now right.
      * split; [etrans; eassumption | eapply recolours_trans; eassumption].
Qed.

Lemma handle_ball_collisions_spec (w : World) :
  evolves w (_handle_ball_collisions w) /\ recolours w (_handle_ball_collisions w).
Proof. apply (collide_all_spec (balls (game w)) (w, [])). done. Qed.

Lemma update_evolves (dt : Q) (w : World) : evolves w (update dt w).
Proof.
  unfold update. etrans; [apply update_loop_evolves |].
  apply handle_ball_collisions_spec.
Qed.

(** ** The ownership invariant and the inventory *)

Lemma wf_check_sound (w : World) : wf_check w = true -> wf w.
Proof.
  unfold wf_check, wf. rewrite andb_true_iff, forallb_forall.
  intros [Hn Hf]. split; [now apply bool_decide_eq_true in Hn |].
  intros a Ha. apply list_elem_of_In, Hf, andb_true_iff in Ha.
  now rewrite !Nat.ltb_lt in Ha.
Qed.

Lemma evolves_wf (w w' : World) : wf w -> evolves w w' -> wf w'.
Proof.
  intros [Hn Ha] He.
  assert (Hs : balls (game w') ++ inventory (game w')
               `sublist_of` balls (game w) ++ inventory (game w)).
  { rewrite (ev_inventory _ _ He). apply sublist_app; [apply He | done]. }
  split; [eapply sublist_NoDup; eassumption |].
  intros a Hin. destruct (Ha a) as [Hl Hc]; [eapply elem_of_sublist; eassumption |].
  split; [now rewrite (ev_length _ _ He) | now apply He].
Qed.

Lemma update_wf (dt : Q) (w : World) : wf w -> wf (update dt w).
Proof. intros H. eapply evolves_wf; [exact H | apply update_evolves]. Qed.

Lemma remove_ball_wf (a : addr) (w : World) : wf w -> wf (remove_ball a w).
Proof. intros H. eapply evolves_wf; [exact H | apply remove_ball_evolves]. Qed.

(** C10: [update(dt)] leaves [inventory] as it is: the same balls in the same
    order, and no field of any of them modified (neither the ball object nor
    the colour object it refers to).  The state is one of the data model: each
    ball is held once, by [balls] or by [inventory]. *)
Theorem update_keeps_inventory (dt : Q) (w : World) :
  wf w ->
  inventory (game (update dt w)) = inventory (game w) /\
  forall a, a ∈ inventory (game w) ->
    objs (update dt w) !!! a = objs w !!! a /\
    cols (update dt w) !!! color (objs w !!! a) = cols w !!! color (objs w !!! a).
Proof.
  intros [Hn Ha]. pose proof (update_evolves dt w) as He.
  split; [apply He |]. intros a Hin.
  apply NoDup_app in Hn as (_ & Hdisj & _). split.
  - apply He. intros Hb. exact (Hdisj a Hb Hin).
  - destruct (Ha a) as [_ Hc]; [apply elem_of_app; now right |].
    apply lookup_lt_is_Some_2 in Hc as [c Hc].
    rewrite (list_lookup_total_correct _ _ _ Hc).
    apply list_lookup_total_correct.
    eapply prefix_lookup_Some; [exact Hc | apply He].
Qed.

(** [update_keeps_inventory] on [w_inv], where [update(1)] steps one ball and
    culls the other. *)
Lemma update_keeps_inventory_witness :
  inventory (game (update 1 w_inv)) = inventory (game w_inv) /\
  forall a, a ∈ inventory (game w_inv) ->
    objs (update 1 w_inv) !!! a = objs w_inv !!! a /\
    cols (update 1 w_inv) !!! color (objs w_inv !!! a)
      = cols w_inv !!! color (objs w_inv !!! a).
Proof.
  apply (update_keeps_inventory 1 w_inv).
  apply wf_check_sound. vm_compute. reflexivity.
Defined.

(** ** Wall collisions *)

Ltac case_Qltb :=
  repeat match goal with
         | |- context [Qltb ?p ?q] =>
             let E := fresh "E" in
             destruct (Qltb p q) eqn:E;
             [apply Qltb_lt in E | apply Qltb_ge in E]
         end.



Lemma step_ball_objs (dt : Q) (a : addr) (w : World) :
  objs (step_ball dt a w) = <[a := move_ball (game w) dt (objs w !!! a)]> (objs w).
Proof.
  unfold step_ball. destruct (contains _ _); [| reflexivity].
  destruct (remove_ball_balls a (store a (move_ball (game w) dt (objs w !!! a)) w))
    as [(i & _ & ->) | ->]; reflexivity.
Qed.




(** The loop body only runs on balls of the list. *)
Lemma update_loop_trace (dt : Q) (fuel i : nat) (w : World) :
  snd (update_loop dt fuel i w) ⊆ balls (game w).
Proof.
  revert i w. induction fuel as [| fuel IH]; intros i w; cbn [update_loop].
  - apply list_subseteq_nil.
  - destruct (balls (game w) !! i) as [a' |] eqn:E; [| apply list_subseteq_nil].
    apply list_elem_of_lookup_2 in E.
    specialize (IH (S i) (step_ball dt a' w)).
    destruct (update_loop dt fuel (S i) (step_ball dt a' w)) as [w' t].
    cbn [snd] in *. intros a Ha. apply elem_of_cons in Ha as [-> | Ha]; [exact E |].
    eapply elem_of_sublist; [apply IH, Ha | apply step_ball_evolves, E].
Qed.





(** ** Removal by equality and the live iteration of [update] *)

(** C5 on the code: with two distinct balls [t], [b] of equal fields and the
    same colour object in [balls = [t; b]], [remove_ball(b)] removes [t] and
    leaves [b]; and then [remove_ball(t)], for the absent [t], removes [b]. *)
Theorem remove_ball_removes_equal_twin :
  balls (game w_twins) = [0%nat; 1%nat] /\
  balls (game (remove_ball 1%nat w_twins)) = [1%nat] /\
  balls (game (remove_ball 0%nat (remove_ball 1%nat w_twins))) = [].
Proof. repeat split. Qed.

(** C3 on the code: with a first ball in the delete zone and a second one at
    (100, 100), [update(1)] runs its loop body on the first ball only; the
    second ball stays in [balls] with every field as before ([vy = 0]), where
    the full step would have left [vy = 0.196]. *)
Theorem update_skips_ball_after_cull :
  balls (game w_skip) = [0%nat; 1%nat] /\
  stepped 1 w_skip = [0%nat] /\
  balls (game (update 1 w_skip)) = [1%nat] /\
  objs (update 1 w_skip) !!! 1%nat = objs w_skip !!! 1%nat /\
  vy (objs (update 1 w_skip) !!! 1%nat) == 0 /\
  vy (move_ball (game w_skip) 1 (objs w_skip !!! 1%nat)) == 196 # 1000.
Proof. repeat split. Qed.

(** C2 on the code: in [w_cull], [update(0)] runs the loop body on the first
    ball and on [b] (the third).  At the end of its step [b] lies in the
    delete zone, but the removal takes its equal twin [t]; [b] is still in
    [balls] when the collision pass runs and gets the colour mixed from its
    own and that of the fourth ball. *)
Theorem update_mixes_ball_in_delete_zone :
  balls (game w_cull) = [0%nat; 1%nat; 2%nat; 3%nat] /\
  stepped 0 w_cull = [0%nat; 2%nat] /\
  contains (delete_zone (game w_cull)) (objs (update_balls 0 w_cull) !!! 2%nat) = true /\
  balls (game (update_balls 0 w_cull)) = [2%nat; 3%nat] /\
  color (objs w_cull !!! 2%nat) = 1%nat /\
  color (objs (update 0 w_cull) !!! 2%nat) = 3%nat /\
  cols (update 0 w_cull) !!! 3%nat =
    _mix_colors (Color_init 10 20 30) (Color_init 0 0 200).
Proof. repeat split. Qed.

(** ** [suck_ball] *)

Section scan.
Variables mouse_x mouse_y suck_radius : Q.
Variable st : list Ball.

Lemma in_reach_iff (p : Q) :
  num_ltb (Sqrt p) (Rat suck_radius) = true <->
  0 < suck_radius /\ p < suck_radius * suck_radius.
Proof. cbn [num_ltb]. now rewrite andb_true_iff, !Qltb_lt. Qed.

Lemma closest_step (l : list addr) (acc : option addr * num) (a : addr) :
  scan_ok mouse_x mouse_y suck_radius st l acc ->
  scan_ok mouse_x mouse_y suck_radius st (l ++ [a])
          (closest mouse_x mouse_y st acc a).
Proof.
  destruct acc as [[c |] md]; cbn [scan_ok closest].
  - intros (-> & Hin & k & Hk & Hmin). fold (mouse_d2 mouse_x mouse_y (st !!! a)).
    cbn [num_ltb] in *. destruct (Qltb (mouse_d2 mouse_x mouse_y (st !!! a)) (mouse_d2 mouse_x mouse_y (st !!! c))) eqn:E.
    + apply Qltb_lt in E. split; [reflexivity |]. split.
      * apply in_reach_iff. apply in_reach_iff in Hin. split; [easy |].
        eapply Qlt_trans; [exact E | easy].
      * exists (length l). split; [apply list_lookup_middle; reflexivity |].
        intros j a' Hj.
        destruct (decide (j < length l)%nat) as [Hlt | Hge].
        -- rewrite lookup_app_l in Hj by exact Hlt.
           destruct (Hmin j a' Hj) as [Hle _].
           assert (mouse_d2 mouse_x mouse_y (st !!! a) < mouse_d2 mouse_x mouse_y (st !!! a')) by (eapply Qlt_le_trans; eassumption).
           split; [now apply Qlt_le_weak | done].
        -- pose proof (lookup_lt_Some _ _ _ Hj) as Hl.
           rewrite length_app in Hl. cbn [length] in Hl.
           assert (j = length l) as -> by lia.
           rewrite list_lookup_middle in Hj by reflexivity.
           injection Hj as <-. split; [apply Qle_refl | lia].
    + apply Qltb_ge in E. split; [reflexivity |]. split; [exact Hin |].
      exists k. split; [apply lookup_app_l_Some, Hk |].
      intros j a' Hj.
      destruct (decide (j < length l)%nat) as [Hlt | Hge].
      * rewrite lookup_app_l in Hj by exact Hlt. now apply Hmin.
      * pose proof (lookup_lt_Some _ _ _ Hj) as Hl.
        rewrite length_app in Hl. cbn [length] in Hl.
        assert (j = length l) as -> by lia.
        rewrite list_lookup_middle in Hj by reflexivity.
        injection Hj as <-. split; [exact E |].
        apply lookup_lt_Some in Hk. lia.
  - intros (-> & Hout). fold (mouse_d2 mouse_x mouse_y (st !!! a)).
    destruct (num_ltb (Sqrt (mouse_d2 mouse_x mouse_y (st !!! a))) (Rat suck_radius)) eqn:E.
    + split; [reflexivity |]. split; [exact E |].
      exists (length l). split; [apply list_lookup_middle; reflexivity |].
      apply in_reach_iff in E as [Hpos E].
      intros j a' Hj.
      destruct (decide (j < length l)%nat) as [Hlt | Hge].
      * rewrite lookup_app_l in Hj by exact Hlt.
        apply list_elem_of_lookup_2, Hout in Hj.
        cbn [num_ltb] in Hj. apply andb_false_iff in Hj as [Hj | Hj];
          apply Qltb_ge in Hj; [lra |].
        assert (mouse_d2 mouse_x mouse_y (st !!! a) < mouse_d2 mouse_x mouse_y (st !!! a')) by (eapply Qlt_le_trans; eassumption).
        split; [now apply Qlt_le_weak | done].
      * pose proof (lookup_lt_Some _ _ _ Hj) as Hl.
        rewrite length_app in Hl. cbn [length] in Hl.
        assert (j = length l) as -> by lia.
        rewrite list_lookup_middle in Hj by reflexivity.
        injection Hj as <-. split; [apply Qle_refl | lia].
    + split; [reflexivity |]. intros a' Ha'.
      apply elem_of_app in Ha' as [Ha' | Ha']; [now apply Hout |].
      apply list_elem_of_singleton in Ha' as ->. exact E.
Qed.

Lemma closest_scan (l : list addr) :
  scan_ok mouse_x mouse_y suck_radius st l
          (foldl (closest mouse_x mouse_y st) (None, Rat suck_radius) l).
Proof.
  induction l as [| a l IH] using rev_ind.
  - cbn. split; [reflexivity |]. intros a Ha. inversion Ha.
  - rewrite foldl_snoc. now apply closest_step.
Qed.
End scan.

Lemma Ball_eq_position (o1 o2 : Ball) :
  Ball_eq o1 o2 = true -> x o1 == x o2 /\ y o1 == y o2.
Proof.
  unfold Ball_eq. rewrite !andb_true_iff, !Qeq_bool_iff. tauto.
Qed.

Lemma py_eq_mouse_d2 (st : list Ball) (a' a : addr) (mouse_x mouse_y : Q) :
  py_eq st a' a = true ->
  mouse_d2 mouse_x mouse_y (st !!! a') == mouse_d2 mouse_x mouse_y (st !!! a).
Proof.
  unfold py_eq. rewrite orb_true_iff, Nat.eqb_eq. intros [-> | H]; [reflexivity |].
  apply Ball_eq_position in H as [Hx Hy]. unfold mouse_d2. now rewrite Hx, Hy.
Qed.






(** The outcome of [suck_ball], on squared distances: the ball at the first
    index [k] that attains the least distance, when that distance is in
    reach, leaves [balls] at [k] and joins the end of [inventory]; the call
    never raises. *)
Lemma suck_ball_outcome (mouse_x mouse_y suck_radius : Q) (w : World) :
  (exists k a,
      balls (game w) !! k = Some a /\
      num_ltb (Sqrt (mouse_d2 mouse_x mouse_y (objs w !!! a))) (Rat suck_radius) = true /\
      (forall j a', balls (game w) !! j = Some a' ->
         mouse_d2 mouse_x mouse_y (objs w !!! a)
           <= mouse_d2 mouse_x mouse_y (objs w !!! a') /\
         ((j < k)%nat ->
          mouse_d2 mouse_x mouse_y (objs w !!! a)
            < mouse_d2 mouse_x mouse_y (objs w !!! a'))) /\
      suck_ball mouse_x mouse_y suck_radius w =
        Returned (Some a,
                  with_inventory (inventory (game w) ++ [a])
                    (with_balls (delete k (balls (game w))) w))) \/
  ((forall a, a ∈ balls (game w) ->
      num_ltb (Sqrt (mouse_d2 mouse_x mouse_y (objs w !!! a))) (Rat suck_radius) = false) /\
   suck_ball mouse_x mouse_y suck_radius w = Returned (None, w)).
Proof.
  pose proof (closest_scan mouse_x mouse_y suck_radius (objs w) (balls (game w))) as H.
  unfold suck_ball.
  destruct (foldl _ _ _) as [[c |] md]; cbn [scan_ok] in H.
  - left. destruct H as (-> & Hin & k & Hk & Hmin). exists k, c.
    split; [exact Hk |]. split; [exact Hin |]. split; [exact Hmin |].
    unfold list_remove.
    rewrite (list_index_first (objs w) c _ k c Hk (py_eq_refl _ _)); [reflexivity |].
    intros j a' Hjk Hj. destruct (py_eq (objs w) a' c) eqn:E; [| reflexivity].
    apply (py_eq_mouse_d2 _ _ _ mouse_x mouse_y) in E.
    destruct (Hmin j a' Hj) as [_ Hlt]. specialize (Hlt Hjk).
    rewrite E in Hlt. now apply Qlt_irrefl in Hlt.
  - right. destruct H as (-> & Hout). split; [exact Hout | reflexivity].
Qed.


(** ** Suck and spit *)






(** ** Termination of the loop, and the invariant under the other calls *)

(** One round per ball of the starting list is enough: the loop of [update]
    ends because the iterator runs off the list, and more fuel changes
    nothing. *)
Lemma update_loop_fuel (dt : Q) (fuel extra i : nat) (w : World) :
  (length (balls (game w)) <= i + fuel)%nat ->
  update_loop dt (fuel + extra) i w = update_loop dt fuel i w.
Proof.
  revert i w. induction fuel as [| fuel IH]; intros i w Hlen.
  - cbn [Nat.add update_loop]. destruct extra as [| extra]; [reflexivity |].
    cbn [update_loop]. rewrite lookup_ge_None_2; [reflexivity | lia].
  - cbn [Nat.add update_loop].
    destruct (balls (game w) !! i) as [a |] eqn:E; [| reflexivity].
    rewrite IH; [reflexivity |].
    pose proof (step_ball_evolves dt a w (list_elem_of_lookup_2 _ _ _ E)) as He.
    apply ev_balls, sublist_length in He. lia.
Qed.

Lemma update_balls_fuel (dt : Q) (n : nat) (w : World) :
  (length (balls (game w)) <= n)%nat ->
  fst (update_loop dt n 0 w) = update_balls dt w.
Proof.
  intros H. unfold update_balls.
  replace n with (length (balls (game w)) + (n - length (balls (game w))))%nat by lia.
  rewrite update_loop_fuel; [reflexivity | lia].
Qed.

(** X6: [suck_ball] never raises: the [list.remove] of the selected ball
    always finds it, so the call returns (a ball or nothing) for every
    argument and every state. *)
Lemma suck_ball_returns (mouse_x mouse_y suck_radius : Q) (w : World) :
  exists res w', suck_ball mouse_x mouse_y suck_radius w = Returned (res, w').
Proof.
  destruct (suck_ball_outcome mouse_x mouse_y suck_radius w)
    as [(k & a & _ & _ & _ & ->) | [_ ->]]; eauto.
Qed.

Lemma GameLogic_init_wf (screen_width0 screen_height0 : Q) :
  wf (mkWorld [] [] (GameLogic_init screen_width0 screen_height0)).
Proof.
  split; cbn; [apply NoDup_nil_2 |]. intros a Ha. inversion Ha.
Qed.

Lemma suck_ball_wf (mouse_x mouse_y suck_radius : Q) (w w' : World)
    (res : option addr) :
  wf w -> suck_ball mouse_x mouse_y suck_radius w = Returned (res, w') -> wf w'.
Proof.
  intros [Hn Ha] Hs.
  destruct (suck_ball_outcome mouse_x mouse_y suck_radius w)
    as [(k & a & Hk & _ & _ & Hr) | [_ Hr]]; rewrite Hr in Hs;
    injection Hs as <- <-; [| now split].
  assert (Hp : delete k (balls (game w)) ++ inventory (game w) ++ [a]
               ≡ₚ balls (game w) ++ inventory (game w)).
  { rewrite <- (take_drop_middle _ _ _ Hk) at 2. rewrite delete_take_drop.
    rewrite <- !app_assoc. apply Permutation_app_head.
    rewrite (Permutation_app_comm (inventory (game w)) [a]).
    cbn [app]. now rewrite Permutation_middle. }
  split; cbn [with_inventory with_balls game inventory balls objs cols].
  - now rewrite Hp.
  - intros a' Ha'. apply Ha. now rewrite <- Hp.
Qed.

Lemma spit_ball_wf (mx my velocity cos_angle sin_angle : Q) (w : World) :
  wf w -> wf (snd (spit_ball mx my velocity cos_angle sin_angle w)).
Proof.
  intros [Hn Ha]. unfold spit_ball.
  destruct (last (inventory (game w))) as [a |] eqn:E; [| now split].
  apply last_Some in E as [inv E].
  cbn [with_inventory with_balls store game inventory balls objs cols snd].
  rewrite E, removelast_last in *.
  assert (Hp : (balls (game w) ++ [a]) ++ inv ≡ₚ balls (game w) ++ inv ++ [a]).
  { rewrite <- app_assoc. apply Permutation_app_head, Permutation_app_comm. }
  split.
  - now rewrite Hp.
  - intros a' Ha'. rewrite Hp in Ha'. destruct (Ha a' Ha') as [Hl Hc].
    cbn [with_inventory with_balls store game inventory balls objs cols set_x set_y set_vx set_vy color].
    rewrite length_insert. split; [exact Hl |].
    destruct (decide (a = a')) as [<- | Hne].
    + now rewrite list_lookup_total_insert_eq by exact Hl.
    + now rewrite list_lookup_total_insert_ne by exact Hne.
Qed.

Lemma snoc_app_perm (l k : list addr) (a : addr) :
  (l ++ [a]) ++ k ≡ₚ a :: (l ++ k).
Proof. rewrite <- app_assoc. cbn [app]. now rewrite Permutation_middle. Qed.

(** A new ball, with a new colour or a colour of the store, keeps the
    invariant. *)
Lemma add_ball_wf (x0 y0 : Q) (color0 : option addr) (rnd : Z * Z * Z) (w : World) :
  wf w ->
  (forall c, color0 = Some c -> (c < length (cols w))%nat) ->
  wf (snd (add_ball x0 y0 color0 rnd w)).
Proof.
  intros [Hn Ha] Hc.
  assert (Hfresh : length (objs w) ∉ balls (game w) ++ inventory (game w)).
  { intros Hin. destruct (Ha _ Hin) as [Hl _]. lia. }
  assert (H : forall (c : addr) (cs : list Color),
             (c < length (cols w ++ cs))%nat ->
             wf (mkWorld (objs w ++ [mkBall x0 y0 0 0 15 c]) (cols w ++ cs)
                   (game (with_balls (balls (game w) ++ [length (objs w)]) w)))).
  { intros c cs Hlt. split; cbn [with_balls game balls inventory objs cols].
    - rewrite snoc_app_perm. now apply NoDup_cons.
    - intros a Hin. rewrite snoc_app_perm in Hin.
      rewrite !length_app. cbn [length].
      apply elem_of_cons in Hin as [-> | Hin].
      + rewrite list_lookup_total_middle by reflexivity. cbn [color].
        rewrite length_app in Hlt. lia.
      + destruct (Ha a Hin) as [Hl Hcol].
        rewrite lookup_total_app_l by exact Hl. lia. }
  unfold add_ball. destruct color0 as [c |]; [| destruct rnd as [[r0 g0] b0]];
    cbn [new_color new_ball snd fst].
  - specialize (H c []). rewrite app_nil_r in H. apply H. now apply Hc.
  - apply (H (length (cols w)) [Color_init r0 g0 b0]).
    rewrite length_app. cbn [length]. lia.
Qed.

(** ** The loop of [update] when nothing is culled, and the cull without a twin *)

(** A ball that ends its step in the delete zone and has no equal ball in
    front of it is the one that leaves the list. *)
Lemma step_ball_culls (dt : Q) (a : addr) (k : nat) (w : World) :
  balls (game w) !! k = Some a ->
  let ball := move_ball (game w) dt (objs w !!! a) in
  contains (delete_zone (game w)) ball = true ->
  (forall j a', (j < k)%nat -> balls (game w) !! j = Some a' ->
                py_eq (objs (store a ball w)) a' a = false) ->
  balls (game (step_ball dt a w)) = delete k (balls (game w)).
Proof.
  intros Hk ball Hz Hbefore. unfold step_ball. fold ball.
  change (delete_zone (game (store a ball w))) with (delete_zone (game w)).
  rewrite Hz. now rewrite (remove_ball_no_twin a (store a ball w) k Hk Hbefore).
Qed.

(** One run of the loop body keeps the list or shortens it. *)
Lemma step_ball_balls (dt : Q) (a : addr) (w : World) :
  balls (game (step_ball dt a w)) = balls (game w) \/
  (length (balls (game (step_ball dt a w))) < length (balls (game w)))%nat.
Proof.
  unfold step_ball. destruct (contains _ _); [| now left].
  destruct (remove_ball_balls a (store a (move_ball (game w) dt (objs w !!! a)) w))
    as [(i & Hi & ->) | ->]; [right | now left].
  cbn [with_balls store game balls] in *. rewrite length_delete; [lia |].
  now apply lookup_lt_is_Some_2.
Qed.

Lemma update_loop_no_cull (dt : Q) (fuel i : nat) (w : World) :
  (length (balls (game w)) <= i + fuel)%nat ->
  length (balls (game (fst (update_loop dt fuel i w)))) = length (balls (game w)) ->
  snd (update_loop dt fuel i w) = drop i (balls (game w)) /\
  balls (game (fst (update_loop dt fuel i w))) = balls (game w).
Proof.
  revert i w. induction fuel as [| fuel IH]; intros i w Hfuel Hlen; cbn [update_loop] in *.
  - cbn [fst snd]. split; [| reflexivity]. rewrite drop_ge; [reflexivity | lia].
  - destruct (balls (game w) !! i) as [a |] eqn:E.
    2: { cbn [fst snd]. split; [| reflexivity].
         rewrite drop_ge; [reflexivity | now apply lookup_ge_None]. }
    pose proof (update_loop_evolves dt fuel (S i) (step_ball dt a w)) as He.
    specialize (IH (S i) (step_ball dt a w)).
    destruct (update_loop dt fuel (S i) (step_ball dt a w)) as [w' t].
    cbn [fst snd] in *.
    apply ev_balls, sublist_length in He.
    destruct (step_ball_balls dt a w) as [Hb | Hb]; [| lia].
    rewrite Hb in IH. destruct IH as [-> ->]; [lia | lia |].
    split; [| reflexivity]. symmetry. now apply drop_S.
Qed.

(** When [update] culls nothing, its loop body runs on every ball, in
    collection order. *)
Lemma update_no_cull_steps_all (dt : Q) (w : World) :
  length (balls (game (update dt w))) = length (balls (game w)) ->
  stepped dt w = balls (game w).
Proof.
  unfold update. destruct (handle_ball_collisions_spec (update_balls dt w)) as [_ [-> _]].
  intros H. now apply (update_loop_no_cull dt (length (balls (game w))) 0 w).
Qed.

Lemma step_ball_game (dt : Q) (a : addr) (w : World) :
  game (step_ball dt a w) = game w \/
  (length (balls (game (step_ball dt a w))) < length (balls (game w)))%nat.
Proof.
  unfold step_ball. destruct (contains _ _); [| now left].
  destruct (remove_ball_balls a (store a (move_ball (game w) dt (objs w !!! a)) w))
    as [(i & Hi & ->) | ->]; [right | now left].
  cbn [with_balls store game balls] in *. rewrite length_delete; [lia |].
  now apply lookup_lt_is_Some_2.
Qed.

Lemma update_loop_no_cull_objs (dt : Q) (fuel i : nat) (w : World) :
  NoDup (balls (game w)) ->
  (forall a, a ∈ balls (game w) -> (a < length (objs w))%nat) ->
  (length (balls (game w)) <= i + fuel)%nat ->
  length (balls (game (fst (update_loop dt fuel i w)))) = length (balls (game w)) ->
  forall j a, balls (game w) !! j = Some a ->
    objs (fst (update_loop dt fuel i w)) !!! a =
    if decide (i <= j)%nat then move_ball (game w) dt (objs w !!! a)
    else objs w !!! a.
Proof.
  revert i w. induction fuel as [| fuel IH];
    intros i w Hn Ha Hfuel Hlen j a Hj; cbn [update_loop] in *.
  - cbn [fst]. apply lookup_lt_Some in Hj. case_decide; [lia | reflexivity].
  - destruct (balls (game w) !! i) as [ai |] eqn:E.
    2: { cbn [fst]. apply lookup_ge_None in E. apply lookup_lt_Some in Hj.
         case_decide; [lia | reflexivity]. }
    pose proof (update_loop_evolves dt fuel (S i) (step_ball dt ai w)) as He.
    specialize (IH (S i) (step_ball dt ai w)).
    destruct (update_loop dt fuel (S i) (step_ball dt ai w)) as [w' t].
    cbn [fst] in *. apply ev_balls, sublist_length in He.
    destruct (step_ball_game dt ai w) as [Hg | Hg]; [| lia].
    rewrite Hg in IH.
    rewrite (IH Hn) with (j := j); [| | lia | lia | exact Hj].
    2: { intros a' Ha'. rewrite step_ball_objs, length_insert. now apply Ha. }
    rewrite step_ball_objs.
    destruct (decide (j = i)) as [-> | Hji].
    + rewrite E in Hj. injection Hj as ->.
      rewrite list_lookup_total_insert_eq
        by (apply Ha; eapply list_elem_of_lookup_2, E).
      repeat case_decide; (lia || reflexivity).
    + assert (ai <> a).
      { intros ->. apply Hji. eapply NoDup_lookup; eassumption. }
      rewrite list_lookup_total_insert_ne by assumption.
      repeat case_decide; (lia || reflexivity).
Qed.

(** When [update] culls nothing, every ball gets the full step. *)
Lemma update_no_cull_moves_all (dt : Q) (w : World) (a : addr) :
  wf w ->
  length (balls (game (update dt w))) = length (balls (game w)) ->
  a ∈ balls (game w) ->
  same_motion (move_ball (game w) dt (objs w !!! a)) (objs (update dt w) !!! a).
Proof.
  intros [Hn Ha] Hlen Hin. unfold update in *.
  destruct (handle_ball_collisions_spec (update_balls dt w)) as [_ [Hg Hm]].
  rewrite Hg in Hlen. apply NoDup_app in Hn as (Hn & _ & _).
  apply list_elem_of_lookup in Hin as [j Hj].
  pose proof (update_loop_no_cull_objs dt (length (balls (game w))) 0 w Hn) as H.
  specialize (H (fun a' Ha' => proj1 (Ha a' (proj2 (elem_of_app _ _ a') (or_introl Ha'))))).
  specialize (H ltac:(lia) Hlen j a Hj). fold (update_balls dt w) in H.
  destruct (decide (0 <= j)%nat); [| lia]. rewrite <- H. apply Hm.
Qed.

(** ** Colours and balls: further properties *)

Lemma Color_init_valid (r0 g0 b0 : Z) : valid_color (Color_init r0 g0 b0).
Proof. unfold valid_color, Color_init. cbn [r g b]. lia. Qed.

(** X1: [Color(r, g, b)] always has its three channels in [0, 255], and
    [to_tuple] gives back the arguments exactly when they were all in range. *)
Theorem Color_init_clamps (r0 g0 b0 : Z) :
  valid_color (Color_init r0 g0 b0) /\
  (to_tuple (Color_init r0 g0 b0) = (r0, g0, b0) <->
   (0 <= r0 <= 255)%Z /\ (0 <= g0 <= 255)%Z /\ (0 <= b0 <= 255)%Z).
Proof.
  unfold valid_color, to_tuple, Color_init. cbn [r g b]. split; [lia |]. split.
  - intros [= Hr Hg Hb]. lia.
  - intros H. repeat f_equal; lia.
Qed.

Lemma mix_colors_valid (c1 c2 : Color) : valid_color (_mix_colors c1 c2).
Proof.
  unfold _mix_colors.
  destruct (saturate _ _ _) as [[r1 g1] b1].
  destruct (unwash _ _ _) as [[r2 g2] b2]. apply Color_init_valid.
Qed.

Lemma is_colliding_comm (o1 o2 : Ball) : is_colliding o1 o2 = is_colliding o2 o1.
Proof.
  unfold is_colliding, distance_to. cbn [num_ltb]. f_equal.
  - apply Qltb_comp; [reflexivity | ring].
  - apply Qltb_comp; ring.
Qed.

(** X2: [is_colliding] and the distance are symmetric in the two balls. *)
Theorem is_colliding_sym (o1 o2 : Ball) :
  is_colliding o1 o2 = is_colliding o2 o1 /\ euclid o1 o2 = euclid o2 o1.
Proof.
  split; [apply is_colliding_comm |].
  unfold euclid, Rsqr. f_equal. ring.
Qed.

Lemma int_of_nonneg (q : Q) : 0 <= q -> (0 <= int_of q)%Z.
Proof.
  intros H. unfold int_of.
  assert (E : Qltb q 0 = false) by now apply Qltb_ge.
  rewrite E. change 0%Z with (Qfloor 0). now apply Qfloor_resp_le.
Qed.

Lemma Qz_nonneg (z : Z) : (0 <= z)%Z -> 0 <= Qz z.
Proof. intros H. unfold Qz, Qle. cbn. lia. Qed.

Lemma blend_nonneg (c1 c2 : Color) (ch : Color -> Z) :
  valid_color c1 -> valid_color c2 -> (0 <= ch c1)%Z -> (0 <= ch c2)%Z ->
  (0 <= blend c1 c2 ch)%Z.
Proof.
  intros (Hr1 & Hg1 & Hb1) (Hr2 & Hg2 & Hb2) H1 H2. unfold blend.
  apply int_of_nonneg.
  set (b1 := Qz (r c1 + g c1 + b c1) / 3).
  set (b2 := Qz (r c2 + g c2 + b c2) / 3).
  set (t := if Qltb (b1 + b2) (1 # 10) then 1 # 10 else b1 + b2).
  assert (Hb1' : 0 <= b1).
  { unfold b1. apply Qle_shift_div_l; [reflexivity |].
    rewrite Qmult_0_l. apply Qz_nonneg. lia. }
  assert (Hb2' : 0 <= b2).
  { unfold b2. apply Qle_shift_div_l; [reflexivity |].
    rewrite Qmult_0_l. apply Qz_nonneg. lia. }
  assert (Ht : 0 < t).
  { unfold t. destruct (Qltb (b1 + b2) (1 # 10)) eqn:E; [reflexivity |].
    apply Qltb_ge in E. lra. }
  assert (Hw1 : 0 <= b1 / t) by (apply Qle_shift_div_l; [exact Ht | lra]).
  assert (Hw2 : 0 <= b2 / t) by (apply Qle_shift_div_l; [exact Ht | lra]).
  pose proof (Qz_nonneg _ H1) as Hc1. pose proof (Qz_nonneg _ H2) as Hc2.
  assert (Hp : 0 <= Qz (ch c1 * ch c2) / 255).
  { apply Qle_shift_div_l; [reflexivity |]. rewrite Qmult_0_l.
    apply Qz_nonneg. lia. }
  revert Hw1 Hw2 Hc1 Hc2 Hp.
  generalize (b1 / t) (b2 / t) (Qz (ch c1)) (Qz (ch c2)) (Qz (ch c1 * ch c2) / 255).
  intros w1 w2 q1 q2 p Hw1 Hw2 Hq1 Hq2 Hp.
  pose proof (Qmult_le_0_compat _ _ Hq1 Hw1).
  pose proof (Qmult_le_0_compat _ _ Hq2 Hw2). lra.
Qed.

(** The brightened channel of a dark blend: [m * (255 / m) * 0.7] is 178.5. *)
Lemma int_of_brighten_max (m : Z) :
  (1 <= m)%Z -> int_of (Qz m * (Qz 255 / Qz (Z.max m 1)) * (7 # 10)) = 178%Z.
Proof.
  intros Hm. rewrite Z.max_l by lia.
  assert (Hne : ~ Qz m == 0).
  { unfold Qz, Qeq. cbn. lia. }
  assert (E : Qz m * (Qz 255 / Qz m) * (7 # 10) == 357 # 2).
  { unfold Qz at 2. field. exact Hne. }
  now rewrite E.
Qed.

Lemma int_of_brighten_nonneg (z m : Z) :
  (0 <= z)%Z -> (0 <= int_of (Qz z * (Qz 255 / Qz (Z.max m 1)) * (7 # 10)))%Z.
Proof.
  intros Hz. apply int_of_nonneg.
  assert (0 <= Qz 255 / Qz (Z.max m 1)).
  { apply Qle_shift_div_l; [unfold Qz, Qlt; cbn; lia |]. rewrite Qmult_0_l. apply Qz_nonneg. lia. }
  pose proof (Qz_nonneg z Hz).
  pose proof (Qmult_le_0_compat _ _ H0 H). lra.
Qed.

Lemma int_of_zero_scaled (q : Q) : int_of (Qz 0 * q * (7 # 10)) = 0%Z.
Proof.
  assert (E : Qz 0 * q * (7 # 10) == 0) by (unfold Qz; ring). now rewrite E.
Qed.

(** Lines 200-213 on non-negative channels: channels in range, and black or
    a brightest channel of at least 140. *)
Lemma saturate_spec (r0 g0 b0 : Z) :
  (0 <= r0)%Z -> (0 <= g0)%Z -> (0 <= b0)%Z ->
  let '(r1, g1, b1) := saturate r0 g0 b0 in
  ((0 <= r1 <= 255) /\ (0 <= g1 <= 255) /\ (0 <= b1 <= 255))%Z /\
  ((r1, g1, b1) = (0, 0, 0)%Z \/ (140 <= Z.max (Z.max r1 g1) b1)%Z).
Proof.
  intros Hr Hg Hb. unfold saturate.
  set (m := Z.max (Z.max (Z.max r0 g0) b0) 1).
  destruct (m <? 128)%Z eqn:E.
  - pose proof (int_of_brighten_nonneg r0 m Hr) as Nr.
    pose proof (int_of_brighten_nonneg g0 m Hg) as Ng.
    pose proof (int_of_brighten_nonneg b0 m Hb) as Nb.
    split; [lia |].
    destruct (decide (r0 = 0 /\ g0 = 0 /\ b0 = 0)%Z) as [(-> & -> & ->) | Hnz].
    + left. now rewrite !int_of_zero_scaled.
    + right. assert (1 <= m)%Z by lia.
      assert (r0 = m \/ g0 = m \/ b0 = m) as [Hm | [Hm | Hm]] by lia;
        rewrite Hm, (int_of_brighten_max m) by assumption; lia.
  - apply Z.ltb_ge in E. rewrite !int_of_scale by assumption.
    split; [Z.to_euclidean_division_equations; lia |]. right.
    assert (r0 = m \/ g0 = m \/ b0 = m) as [Hm | [Hm | Hm]] by lia;
      rewrite Hm; Z.to_euclidean_division_equations; lia.
Qed.

(** Lines 217-234 on channels in range. *)
Lemma unwash_spec (r1 g1 b1 : Z) :
  ((0 <= r1 <= 255) /\ (0 <= g1 <= 255) /\ (0 <= b1 <= 255))%Z ->
  let '(r2, g2, b2) := unwash r1 g1 b1 in
  ((0 <= r2 <= 255) /\ (0 <= g2 <= 255) /\ (0 <= b2 <= 255))%Z /\
  ((r1, g1, b1) = (r2, g2, b2) \/ (140 <= Z.max (Z.max r2 g2) b2)%Z).
Proof.
  intros (Hr & Hg & Hb). unfold unwash.
  destruct (near_white r1 g1 b1) eqn:E; [| split; [lia | now left]].
  apply near_white_Z in E.
  assert (171 <= r1 /\ 171 <= g1 /\ 171 <= b1)%Z as (Hr0 & Hg0 & Hb0) by lia.
  rewrite !int_of_scale by lia.
  pose proof (boost_bounds r1 ltac:(lia)) as Br.
  pose proof (boost_bounds g1 ltac:(lia)) as Bg.
  pose proof (boost_bounds b1 ltac:(lia)) as Bb.
  pose proof (suppress_bounds r1 ltac:(lia)) as Sr.
  pose proof (suppress_bounds g1 ltac:(lia)) as Sg.
  pose proof (suppress_bounds b1 ltac:(lia)) as Sb.
  destruct (_ && _); [| destruct (_ && _)]; (split; [lia | right; lia]).
Qed.

(** X3: the mix of two colours with channels in [0, 255] is black, or
    has a brightest channel of at least 140: [_mix_colors] never returns a
    dark colour other than black. *)
Theorem mix_colors_black_or_bright (c1 c2 : Color) :
  valid_color c1 -> valid_color c2 ->
  to_tuple (_mix_colors c1 c2) = (0, 0, 0)%Z \/
  (140 <= Z.max (Z.max (r (_mix_colors c1 c2)) (g (_mix_colors c1 c2)))
                (b (_mix_colors c1 c2)))%Z.
Proof.
  intros V1 V2. unfold _mix_colors.
  pose proof (blend_nonneg c1 c2 r V1 V2 ltac:(apply V1) ltac:(apply V2)) as Hr.
  pose proof (blend_nonneg c1 c2 g V1 V2 ltac:(apply V1) ltac:(apply V2)) as Hg.
  pose proof (blend_nonneg c1 c2 b V1 V2 ltac:(apply V1) ltac:(apply V2)) as Hb.
  pose proof (saturate_spec _ _ _ Hr Hg Hb) as Hs.
  destruct (saturate _ _ _) as [[r1 g1] b1]. destruct Hs as [Hrange Hs].
  pose proof (unwash_spec _ _ _ Hrange) as Hu.
  destruct (unwash _ _ _) as [[r2 g2] b2]. destruct Hu as [Hrange2 Hu].
  unfold to_tuple, Color_init. cbn [r g b].
  destruct Hu as [[= <- <- <-] | Hu].
  - destruct Hs as [[= -> -> ->] | Hs]; [now left | right; lia].
  - right. lia.
Qed.

(** [mix_colors_black_or_bright] on (10, 200, 30) and (250, 20, 30). *)
Lemma mix_colors_black_or_bright_witness :
  to_tuple (_mix_colors (mkColor 10 200 30) (mkColor 250 20 30)) = (0, 0, 0)%Z \/
  (140 <= Z.max (Z.max (r (_mix_colors (mkColor 10 200 30) (mkColor 250 20 30)))
                       (g (_mix_colors (mkColor 10 200 30) (mkColor 250 20 30))))
                (b (_mix_colors (mkColor 10 200 30) (mkColor 250 20 30))))%Z.
Proof.
  apply (mix_colors_black_or_bright (mkColor 10 200 30) (mkColor 250 20 30));
    unfold valid_color; cbn; lia.
Defined.

(** ** Adding, removing, sucking and spitting *)

Lemma list_index_Some_first (st : list Ball) (a : addr) (l : list addr) (i : nat) :
  list_index st a l = Some i ->
  forall j a', (j < i)%nat -> l !! j = Some a' -> py_eq st a' a = false.
Proof.
  revert i. induction l as [| a0 l IH]; intros i; cbn [list_index].
  - discriminate.
  - destruct (py_eq st a0 a) eqn:E.
    + intros [= <-] j a' Hj. lia.
    + destruct (list_index st a l) as [k |]; [| discriminate].
      intros [= <-] j a' Hj Hl. destruct j as [| j].
      * injection Hl as <-. exact E.
      * apply (IH k eq_refl j a'); [lia | exact Hl].
Qed.

(** X4: [remove_ball(b)] deletes from [balls] the first item that is [b] or
    compares equal to it, and nothing else changes; when no item is [b] or
    equal to it, the call changes nothing at all. *)
Theorem remove_ball_outcome (a : addr) (w : World) :
  (exists k a',
      balls (game w) !! k = Some a' /\ py_eq (objs w) a' a = true /\
      (forall j a'', (j < k)%nat -> balls (game w) !! j = Some a'' ->
                     py_eq (objs w) a'' a = false) /\
      remove_ball a w = with_balls (delete k (balls (game w))) w) \/
  ((forall a', a' ∈ balls (game w) -> py_eq (objs w) a' a = false) /\
   remove_ball a w = w).
Proof.
  unfold remove_ball, list_contains, list_remove.
  destruct (list_index (objs w) a (balls (game w))) as [k |] eqn:E.
  - left. destruct (list_index_lookup _ _ _ _ E) as (a' & Hk & Heq).
    exists k, a'. split; [exact Hk |]. split; [exact Heq |].
    split; [| reflexivity]. now apply list_index_Some_first.
  - right. split; [| reflexivity]. now apply list_index_None.
Qed.

Lemma delete_snoc (l : list addr) (a : addr) : delete (length l) (l ++ [a]) = l.
Proof. induction l as [| a0 l IH]; cbn; [reflexivity | now f_equal]. Qed.

(** X5: [add_ball(x, y)] without a colour returns a ball that was in
    neither list, appended to [balls] at position [(x, y)], every earlier
    object untouched; [remove_ball] of that ball gives [balls] back as it
    was. *)
Theorem add_remove_round_trip (x0 y0 : Q) (rnd : Z * Z * Z) (w : World) :
  wf w ->
  let a := fst (add_ball x0 y0 None rnd w) in
  let w1 := snd (add_ball x0 y0 None rnd w) in
  (a ∉ balls (game w) ++ inventory (game w)) /\
  balls (game w1) = balls (game w) ++ [a] /\
  get_position (objs w1 !!! a) = (x0, y0) /\
  (forall a', (a' < length (objs w))%nat -> objs w1 !!! a' = objs w !!! a') /\
  balls (game (remove_ball a w1)) = balls (game w).
Proof.
  intros [Hn Ha]. destruct rnd as [[r0 g0] b0].
  cbn [add_ball new_color new_ball with_balls game balls inventory objs cols fst snd].
  split; [| split; [reflexivity |]].
  { intros Hin. destruct (Ha _ Hin) as [Hl _]. lia. }
  split; [| split].
  - now rewrite list_lookup_total_middle.
  - intros a' Hl. now apply lookup_total_app_l.
  - set (w1 := with_balls _ _).
    assert (Hb : balls (game w1) = balls (game w) ++ [length (objs w)]) by reflexivity.
    assert (Ho : objs w1 = objs w ++ [mkBall x0 y0 0 0 15 (length (cols w))])
      by reflexivity.
    rewrite (remove_ball_no_twin (length (objs w)) w1 (length (balls (game w)))).
    + cbn [with_balls game balls]. rewrite Hb.
      apply delete_snoc.
    + rewrite Hb. now apply list_lookup_middle.
    + intros j a' Hj Hl. rewrite Hb in Hl.
      rewrite lookup_app_l in Hl by exact Hj.
      apply list_elem_of_lookup_2 in Hl.
      destruct (Ha a') as [Hlt Hc]; [apply elem_of_app; now left |].
      unfold py_eq, Ball_eq. rewrite Ho.
      rewrite lookup_total_app_l by exact Hlt.
      rewrite list_lookup_total_middle by reflexivity.
      change (color (mkBall x0 y0 0 0 15 (length (cols w)))) with (length (cols w)).
      replace (Nat.eqb a' (length (objs w))) with false
        by (symmetry; apply Nat.eqb_neq; lia).
      replace (Nat.eqb (color (objs w !!! a')) (length (cols w))) with false
        by (symmetry; apply Nat.eqb_neq, Nat.lt_neq, Hc).
      now rewrite andb_false_r.
Qed.

(** [add_remove_round_trip] on [w_twins]. *)
Lemma add_remove_round_trip_witness :
  let a := fst (add_ball 5 5 None (60, 70, 80)%Z w_twins) in
  let w1 := snd (add_ball 5 5 None (60, 70, 80)%Z w_twins) in
  (a ∉ balls (game w_twins) ++ inventory (game w_twins)) /\
  balls (game w1) = balls (game w_twins) ++ [a] /\
  get_position (objs w1 !!! a) = (5, 5) /\
  (forall a', (a' < length (objs w_twins))%nat -> objs w1 !!! a' = objs w_twins !!! a') /\
  balls (game (remove_ball a w1)) = balls (game w_twins).
Proof.
  apply (add_remove_round_trip 5 5 (60, 70, 80)%Z w_twins).
  apply wf_check_sound. vm_compute. reflexivity.
Defined.

(** [spit_ball] pops the end of the inventory. *)
Lemma spit_ball_pop (mx my velocity cos_angle sin_angle : Q) (w : World)
    (inv : list addr) (a : addr) :
  inventory (game w) = inv ++ [a] ->
  fst (spit_ball mx my velocity cos_angle sin_angle w) = Some a /\
  inventory (game (snd (spit_ball mx my velocity cos_angle sin_angle w))) = inv /\
  balls (game (snd (spit_ball mx my velocity cos_angle sin_angle w)))
    = balls (game w) ++ [a] /\
  objs (snd (spit_ball mx my velocity cos_angle sin_angle w)) =
    <[a := mkBall mx my (cos_angle * velocity) (sin_angle * velocity)
                  (radius (objs w !!! a)) (color (objs w !!! a))]> (objs w).
Proof.
  intros E. unfold spit_ball. rewrite E, last_snoc.
  cbn [with_inventory with_balls store game inventory balls objs cols fst snd].
  now rewrite removelast_last.
Qed.

(** X7: [spit_ball] on an empty inventory returns nothing and changes
    nothing; otherwise it pops the last ball of [inventory], appends it to
    [balls] and assigns its position and velocity, keeping its radius and
    colour and every other object. *)
Theorem spit_ball_outcome (mx my velocity cos_angle sin_angle : Q) (w : World) :
  (inventory (game w) = [] /\
   spit_ball mx my velocity cos_angle sin_angle w = (None, w)) \/
  (exists inv a,
      inventory (game w) = inv ++ [a] /\
      fst (spit_ball mx my velocity cos_angle sin_angle w) = Some a /\
      inventory (game (snd (spit_ball mx my velocity cos_angle sin_angle w))) = inv /\
      balls (game (snd (spit_ball mx my velocity cos_angle sin_angle w)))
        = balls (game w) ++ [a] /\
      objs (snd (spit_ball mx my velocity cos_angle sin_angle w)) =
        <[a := mkBall mx my (cos_angle * velocity) (sin_angle * velocity)
                      (radius (objs w !!! a)) (color (objs w !!! a))]> (objs w)).
Proof.
  destruct (inventory (game w)) as [| a0 inv0] eqn:E using rev_ind.
  - left. split; [reflexivity |]. unfold spit_ball. now rewrite E.
  - right. exists inv0, a0. split; [reflexivity |]. now apply spit_ball_pop.
Qed.

Lemma suck_ball_push (mouse_x mouse_y suck_radius : Q) (w w' : World) (a : addr) :
  suck_ball mouse_x mouse_y suck_radius w = Returned (Some a, w') ->
  inventory (game w') = inventory (game w) ++ [a] /\
  length (balls (game w')) = pred (length (balls (game w))) /\
  (0 < length (balls (game w)))%nat /\ objs w' = objs w.
Proof.
  intros Hs.
  destruct (suck_ball_outcome mouse_x mouse_y suck_radius w)
    as [(k & a' & Hk & _ & _ & Hr) | [_ Hr]]; rewrite Hr in Hs; [| discriminate].
  injection Hs as <- <-.
  cbn [with_inventory with_balls game inventory balls objs].
  pose proof (lookup_lt_Some _ _ _ Hk).
  rewrite length_delete by eauto. repeat split; lia.
Qed.

(** X8: the inventory is a stack: after two successful [suck_ball] calls,
    the first [spit_ball] returns the ball sucked last, the second one the
    ball sucked first, and the inventory is then as it was at the start. *)
Theorem inventory_is_a_stack
    (mx1 my1 rad1 mx2 my2 rad2 px1 py1 v1 c1 s1 px2 py2 v2 c2 s2 : Q)
    (w w1 w2 : World) (B1 B2 : addr) :
  suck_ball mx1 my1 rad1 w = Returned (Some B1, w1) ->
  suck_ball mx2 my2 rad2 w1 = Returned (Some B2, w2) ->
  let w3 := snd (spit_ball px1 py1 v1 c1 s1 w2) in
  let w4 := snd (spit_ball px2 py2 v2 c2 s2 w3) in
  fst (spit_ball px1 py1 v1 c1 s1 w2) = Some B2 /\
  fst (spit_ball px2 py2 v2 c2 s2 w3) = Some B1 /\
  inventory (game w4) = inventory (game w).
Proof.
  intros H1 H2 w3 w4.
  apply suck_ball_push in H1 as (I1 & _). apply suck_ball_push in H2 as (I2 & _).
  rewrite I1 in I2.
  destruct (spit_ball_pop px1 py1 v1 c1 s1 w2 _ _ I2) as (R3 & I3 & _).
  fold w3 in I3.
  destruct (spit_ball_pop px2 py2 v2 c2 s2 w3 _ _ I3) as (R4 & I4 & _).
  fold w4 in I4. done.
Qed.

(** X9: a successful [suck_ball] moves one ball (inventory size +1, [balls]
    one shorter), a failed one changes nothing, and none raises; [spit_ball]
    takes one ball from the inventory if there is one and keeps the total
    number of balls; [update] keeps the inventory size and never lengthens
    [balls]; [clear_inventory] empties the inventory and touches neither
    [balls] nor any object. *)
Theorem balls_are_conserved :
  (forall mouse_x mouse_y suck_radius w,
      match suck_ball mouse_x mouse_y suck_radius w with
      | Returned (Some _, w') =>
          get_inventory_size w' = S (get_inventory_size w) /\
          S (length (balls (game w'))) = length (balls (game w))
      | Returned (None, w') => w' = w
      | ValueError => False
      end) /\
  (forall mx my velocity cos_angle sin_angle w,
      let w' := snd (spit_ball mx my velocity cos_angle sin_angle w) in
      get_inventory_size w' = pred (get_inventory_size w) /\
      (length (balls (game w')) + get_inventory_size w'
       = length (balls (game w)) + get_inventory_size w)%nat) /\
  (forall dt w,
      get_inventory_size (update dt w) = get_inventory_size w /\
      (length (balls (game (update dt w))) <= length (balls (game w)))%nat) /\
  (forall w,
      get_inventory_size (clear_inventory w) = O /\
      balls (game (clear_inventory w)) = balls (game w) /\
      objs (clear_inventory w) = objs w).
Proof.
  split; [| split; [| split]].
  - intros mouse_x mouse_y suck_radius w.
    destruct (suck_ball mouse_x mouse_y suck_radius w) as [[[a |] w'] |] eqn:E.
    + apply suck_ball_push in E as (Hi & Hb & Hpos & _).
      unfold get_inventory_size. rewrite Hi, length_app. cbn [length]. lia.
    + destruct (suck_ball_outcome mouse_x mouse_y suck_radius w)
        as [(k & a' & _ & _ & _ & Hr) | [_ Hr]]; rewrite Hr in E;
        [discriminate | now injection E].
    + destruct (suck_ball_outcome mouse_x mouse_y suck_radius w)
        as [(k & a' & _ & _ & _ & Hr) | [_ Hr]]; rewrite Hr in E; discriminate.
  - intros mx my velocity cos_angle sin_angle w w'. unfold get_inventory_size, w'.
    destruct (inventory (game w)) as [| a0 inv0] eqn:E using rev_ind.
    + unfold spit_ball. rewrite E. cbn [snd last]. rewrite E. cbn. lia.
    + destruct (spit_ball_pop mx my velocity cos_angle sin_angle w _ _ E)
        as (_ & -> & -> & _).
      rewrite !length_app. cbn [length]. lia.
  - intros dt w. pose proof (update_evolves dt w) as He. unfold get_inventory_size.
    rewrite (ev_inventory _ _ He). split; [reflexivity |].
    apply sublist_length, He.
  - intros w. repeat split.
Qed.




(** ** [update] and the collision pass: further properties *)

(** X12: [update(dt)] never adds or reorders balls ([balls] afterwards is a
    sublist of [balls] before), leaves the screen size, the delete zone,
    friction and gravity as they are, creates and resizes no ball, touches
    no ball outside [balls], and keeps every existing colour object. *)
Theorem update_frame (dt : Q) (w : World) :
  balls (game (update dt w)) `sublist_of` balls (game w) /\
  (screen_width (game (update dt w)) = screen_width (game w) /\
   screen_height (game (update dt w)) = screen_height (game w) /\
   delete_zone (game (update dt w)) = delete_zone (game w) /\
   friction (game (update dt w)) = friction (game w) /\
   gravity (game (update dt w)) = gravity (game w)) /\
  length (objs (update dt w)) = length (objs w) /\
  (forall a, radius (objs (update dt w) !!! a) = radius (objs w !!! a)) /\
  (forall a, a ∉ balls (game w) -> objs (update dt w) !!! a = objs w !!! a) /\
  cols w `prefix_of` cols (update dt w).
Proof.
  destruct (update_evolves dt w). repeat split; assumption.
Qed.

(** X13: the collision pass changes colours only: the game (lists and
    configuration) is the same, no ball is created, the existing colour
    objects are kept, and every ball keeps position, velocity and radius. *)
Theorem handle_ball_collisions_recolours (w : World) :
  game (_handle_ball_collisions w) = game w /\
  length (objs (_handle_ball_collisions w)) = length (objs w) /\
  cols w `prefix_of` cols (_handle_ball_collisions w) /\
  forall a,
    get_position (objs (_handle_ball_collisions w) !!! a) = get_position (objs w !!! a) /\
    vx (objs (_handle_ball_collisions w) !!! a) = vx (objs w !!! a) /\
    vy (objs (_handle_ball_collisions w) !!! a) = vy (objs w !!! a) /\
    radius (objs (_handle_ball_collisions w) !!! a) = radius (objs w !!! a).
Proof.
  destruct (handle_ball_collisions_spec w) as [He [Hg Hm]].
  split; [exact Hg |]. split; [apply He |]. split; [apply He |].
  intros a. destruct (Hm a) as (Hx & Hy & Hvx & Hvy & Hr).
  unfold get_position. now rewrite Hx, Hy.
Qed.

(** The collision test only reads position and radius. *)
Lemma is_colliding_same_motion (o1 o1' o2 o2' : Ball) :
  same_motion o1 o1' -> same_motion o2 o2' ->
  is_colliding o1' o2' = is_colliding o1 o2.
Proof.
  intros (Hx1 & Hy1 & _ & _ & Hr1) (Hx2 & Hy2 & _ & _ & Hr2).
  unfold is_colliding, distance_to. now rewrite Hx1, Hy1, Hr1, Hx2, Hy2, Hr2.
Qed.

Lemma collide_no_collision (a1 a2 : addr) (st : World * list (addr * addr)) :
  is_colliding (objs (fst st) !!! a1) (objs (fst st) !!! a2) = false ->
  collide a1 a2 st = st.
Proof. destruct st as [w p]. unfold collide. cbn [fst]. now intros ->. Qed.

Lemma collide_all_no_collision (l : list addr) (st : World * list (addr * addr)) :
  (forall i j a1 a2, (i < j)%nat -> l !! i = Some a1 -> l !! j = Some a2 ->
     is_colliding (objs (fst st) !!! a1) (objs (fst st) !!! a2) = false) ->
  collide_all l st = st.
Proof.
  revert st. induction l as [| a1 l IH]; intros st H; cbn [collide_all].
  - reflexivity.
  - assert (Hin : foldl (fun st a2 => collide a1 a2 st) st l = st).
    { assert (Hrest : forall j a2, l !! j = Some a2 ->
                is_colliding (objs (fst st) !!! a1) (objs (fst st) !!! a2) = false).
      { intros j a2 Hj. apply (H O (S j)); [lia | reflexivity | exact Hj]. }
      clear H IH. induction l as [| a2 l IH]; cbn [foldl]; [reflexivity |].
      rewrite collide_no_collision by (apply (Hrest O); reflexivity).
      apply IH. intros j a Hj. apply (Hrest (S j)). exact Hj. }
    rewrite Hin. apply IH. intros i j a a' Hij Hi Hj.
    apply (H (S i) (S j)); [lia | exact Hi | exact Hj].
Qed.

(** X14: when no two balls of [balls] touch, the collision pass changes
    nothing. *)
Theorem no_collision_no_change (w : World) :
  (forall i j a1 a2, (i < j)%nat ->
     balls (game w) !! i = Some a1 -> balls (game w) !! j = Some a2 ->
     is_colliding (objs w !!! a1) (objs w !!! a2) = false) ->
  _handle_ball_collisions w = w.
Proof.
  intros H. unfold _handle_ball_collisions.
  now rewrite (collide_all_no_collision (balls (game w)) (w, [])).
Qed.

(** [no_collision_no_change] on [w_skip], whose two balls are far apart. *)
Lemma no_collision_no_change_witness : _handle_ball_collisions w_skip = w_skip.
Proof.
  apply (no_collision_no_change w_skip).
  intros i j a1 a2 Hij Hi Hj.
  destruct i as [| [| i]]; destruct j as [| [| j]];
    try lia; try discriminate.
  injection Hi as <-. injection Hj as <-. vm_compute. reflexivity.
Defined.

(** One pair of the collision pass leaves alone every ball that is not one
    of the two, and both of them when they do not touch. *)
Lemma collide_other (a a1 a2 : addr) (st : World * list (addr * addr)) :
  (a = a1 \/ a = a2 ->
   is_colliding (objs (fst st) !!! a1) (objs (fst st) !!! a2) = false) ->
  objs (fst (collide a1 a2 st)) !!! a = objs (fst st) !!! a.
Proof.
  destruct st as [w p]. unfold collide. cbn [fst]. intros H.
  destruct (is_colliding _ _) eqn:E; [| reflexivity].
  case_bool_decide; [reflexivity |].
  assert (a <> a1 /\ a <> a2) as [H1 H2].
  { split; intros ->; discriminate H; auto. }
  cbn [new_color fst]. rewrite !store_lookup.
  repeat case_decide; try reflexivity; exfalso; intuition congruence.
Qed.

Lemma collide_all_isolated (w0 : World) (a : addr) (l : list addr)
    (st : World * list (addr * addr)) :
  recolours w0 (fst st) -> NoDup l ->
  (forall a', a' ∈ l -> a' <> a ->
     is_colliding (objs w0 !!! a) (objs w0 !!! a') = false) ->
  objs (fst (collide_all l st)) !!! a = objs (fst st) !!! a.
Proof.
  revert st. induction l as [| a1 l IH]; intros st Hrec Hn Hiso; cbn [collide_all].
  - reflexivity.
  - apply NoDup_cons in Hn as [Hnotin Hn].
    assert (Hin : forall k st',
               recolours w0 (fst st') -> k ⊆ l ->
               objs (fst (foldl (fun st a2 => collide a1 a2 st) st' k)) !!! a
                 = objs (fst st') !!! a /\
               recolours w0 (fst (foldl (fun st a2 => collide a1 a2 st) st' k))).
    { induction k as [| a2 k IHk]; intros st' Hrec' Hk; cbn [foldl]; [done |].
      assert (Ha2 : a2 ∈ l) by (apply Hk; left).
      assert (Hne : a1 <> a2) by (intros ->; contradiction).
      pose proof (collide_recolours a1 a2 st') as Hstep.
      destruct (IHk (collide a1 a2 st')) as [Ho Hr].
      - eapply recolours_trans; eassumption.
      - intros a' Ha'. apply Hk. now right.
      - split; [| exact Hr]. rewrite Ho. apply collide_other.
        intros Ha.
        rewrite (is_colliding_same_motion (objs w0 !!! a1) _ (objs w0 !!! a2) _)
          by apply Hrec'.
        destruct Ha as [-> | ->].
        + apply Hiso; [now right | congruence].
        + rewrite is_colliding_comm. apply Hiso; [now left | congruence]. }
    destruct (Hin l st Hrec) as [Ho Hr]; [done |].
    rewrite IH; [exact Ho | exact Hr | exact Hn |].
    intros a' Ha'. apply Hiso. now right.
Qed.

(** X15: a ball that touches no other ball of [balls] comes out of the
    collision pass unchanged, whatever the other balls do. *)
Theorem isolated_ball_keeps_color (w : World) (a : addr) :
  NoDup (balls (game w)) ->
  (forall a', a' ∈ balls (game w) -> a' <> a ->
     is_colliding (objs w !!! a) (objs w !!! a') = false) ->
  objs (_handle_ball_collisions w) !!! a = objs w !!! a.
Proof.
  intros Hn Hiso. unfold _handle_ball_collisions.
  now apply (collide_all_isolated w a (balls (game w)) (w, []));
    [apply recolours_refl | |].
Qed.

(** Each pair adds at most one colour object. *)
Lemma collide_cols (a1 a2 : addr) (st : World * list (addr * addr)) :
  (length (cols (fst (collide a1 a2 st))) <= S (length (cols (fst st))))%nat.
Proof.
  destruct st as [w p]. unfold collide. cbn [fst].
  destruct (is_colliding _ _); [| cbn [fst]; lia].
  case_bool_decide; [cbn [fst]; lia |].
  cbn [new_color store fst cols]. rewrite length_app. cbn [length]. lia.
Qed.

Lemma foldl_collide_cols (a1 : addr) (l : list addr) (st : World * list (addr * addr)) :
  (length (cols (fst (foldl (fun st a2 => collide a1 a2 st) st l)))
   <= length (cols (fst st)) + length l)%nat.
Proof.
  revert st. induction l as [| a2 l IH]; intros st; cbn [foldl length]; [lia |].
  specialize (IH (collide a1 a2 st)). pose proof (collide_cols a1 a2 st). lia.
Qed.

Lemma collide_all_cols (l : list addr) (st : World * list (addr * addr)) :
  (2 * length (cols (fst (collide_all l st)))
   <= 2 * length (cols (fst st)) + length l * (length l - 1))%nat.
Proof.
  revert st. induction l as [| a1 l IH]; intros st; cbn [collide_all length]; [lia |].
  specialize (IH (foldl (fun st a2 => collide a1 a2 st) st l)).
  pose proof (foldl_collide_cols a1 l st).
  destruct (length l) as [| n]; [lia |]. nia.
Qed.

Lemma update_balls_cols (dt : Q) (w : World) : cols (update_balls dt w) = cols w.
Proof.
  unfold update_balls. generalize (length (balls (game w))) O. intros fuel i.
  revert i w. induction fuel as [| fuel IH]; intros i w; cbn [update_loop]; [done |].
  destruct (balls (game w) !! i) as [a |]; [| done].
  specialize (IH (S i) (step_ball dt a w)).
  destruct (update_loop dt fuel (S i) (step_ball dt a w)) as [w' t].
  cbn [fst] in *. rewrite IH. unfold step_ball.
  destruct (contains _ _); [| reflexivity].
  destruct (remove_ball_balls a (store a (move_ball (game w) dt (objs w !!! a)) w))
    as [(k & _ & ->) | ->]; reflexivity.
Qed.

(** X17: with [n] balls the collision pass, and so [update], creates at
    most [n * (n - 1) / 2] colour objects: one per unordered pair. *)
Theorem collisions_mix_each_pair_once (dt : Q) (w : World) :
  (2 * length (cols (_handle_ball_collisions w))
   <= 2 * length (cols w)
      + length (balls (game w)) * (length (balls (game w)) - 1))%nat /\
  (2 * length (cols (update dt w))
   <= 2 * length (cols w)
      + length (balls (game w)) * (length (balls (game w)) - 1))%nat.
Proof.
  split.
  - apply (collide_all_cols (balls (game w)) (w, [])).
  - unfold update, _handle_ball_collisions.
    pose proof (collide_all_cols (balls (game (update_balls dt w)))
                  (update_balls dt w, [])) as H.
    cbn [fst] in H. rewrite update_balls_cols in H.
    pose proof (update_loop_evolves dt (length (balls (game w))) 0 w) as He.
    apply ev_balls, sublist_length in He. fold (update_balls dt w) in He.
    nia.
Qed.

(** X16: with exactly two balls, touching, the collision pass creates one
    colour object, the mix of their two colours, and both balls refer to
    it. *)
Theorem two_touching_balls_share_the_mix (w : World) (a1 a2 : addr) :
  balls (game w) = [a1; a2] -> a1 <> a2 ->
  (a1 < length (objs w))%nat -> (a2 < length (objs w))%nat ->
  is_colliding (objs w !!! a1) (objs w !!! a2) = true ->
  cols (_handle_ball_collisions w) =
    cols w ++ [_mix_colors (cols w !!! color (objs w !!! a1))
                           (cols w !!! color (objs w !!! a2))] /\
  color (objs (_handle_ball_collisions w) !!! a1) = length (cols w) /\
  color (objs (_handle_ball_collisions w) !!! a2) = length (cols w).
Proof.
  intros Hb Hne H1 H2 Hc. unfold _handle_ball_collisions. rewrite Hb.
  cbn [collide_all foldl].
  assert (E : collide a1 a2 (w, []) =
    (store a2 (set_color (length (cols w))
                 (objs (store a1 (set_color (length (cols w)) (objs w !!! a1))
                          (snd (new_color (_mix_colors (cols w !!! color (objs w !!! a1))
                                                       (cols w !!! color (objs w !!! a2))) w)))
                  !!! a2))
       (store a1 (set_color (length (cols w)) (objs w !!! a1))
          (snd (new_color (_mix_colors (cols w !!! color (objs w !!! a1))
                                       (cols w !!! color (objs w !!! a2))) w))),
     [pair_id a1 a2])).
  { unfold collide. rewrite Hc.
    now rewrite bool_decide_eq_false_2 by (intros Hin; inversion Hin). }
  rewrite E. cbn [new_color fst snd store objs cols game].
  split; [reflexivity |]. split.
  - rewrite list_lookup_total_insert_ne by congruence.
    now rewrite list_lookup_total_insert_eq.
  - now rewrite list_lookup_total_insert_eq by (rewrite length_insert; exact H2).
Qed.

(** [w_twins]: two balls on the same spot. *)
Lemma two_touching_balls_share_the_mix_witness :
  cols (_handle_ball_collisions w_twins) =
    cols w_twins ++ [_mix_colors (cols w_twins !!! color (objs w_twins !!! 0%nat))
                                 (cols w_twins !!! color (objs w_twins !!! 1%nat))] /\
  color (objs (_handle_ball_collisions w_twins) !!! 0%nat) = length (cols w_twins) /\
  color (objs (_handle_ball_collisions w_twins) !!! 1%nat) = length (cols w_twins).
Proof.
  apply (two_touching_balls_share_the_mix w_twins 0%nat 1%nat);
    [reflexivity | lia | vm_compute; lia | vm_compute; lia | reflexivity].
Defined.

(** X18: when the first ball of [balls] ends its step inside the delete
    zone, it is not in [balls] after [update]. *)
Theorem update_culls_first_ball (dt : Q) (w : World) (a : addr) (rest : list addr) :
  wf w -> balls (game w) = a :: rest ->
  contains (delete_zone (game w)) (move_ball (game w) dt (objs w !!! a)) = true ->
  a ∉ balls (game (update dt w)).
Proof.
  intros [Hn _] Hb Hz Hin.
  rewrite Hb in Hn. cbn [app] in Hn. apply NoDup_cons in Hn as [Hnotin _].
  apply Hnotin, elem_of_app. left.
  unfold update in Hin.
  destruct (handle_ball_collisions_spec (update_balls dt w)) as [_ [Hg _]].
  rewrite Hg in Hin. unfold update_balls in Hin. rewrite Hb in Hin.
  cbn [length update_loop] in Hin. rewrite Hb in Hin. cbn [lookup list_lookup] in Hin.
  pose proof (update_loop_evolves dt (length rest) 1 (step_ball dt a w)) as He.
  destruct (update_loop dt (length rest) 1 (step_ball dt a w)) as [w' t].
  cbn [fst] in *.
  eapply elem_of_sublist in Hin; [| apply He].
  rewrite (step_ball_culls dt a O w) in Hin.
  - now rewrite Hb in Hin.
  - now rewrite Hb.
  - exact Hz.
  - intros j a' Hj. lia.
Qed.

(** [update_culls_first_ball] on [w_skip], whose first ball is in the zone. *)
Lemma update_culls_first_ball_witness : 0%nat ∉ balls (game (update 1 w_skip)).
Proof.
  apply (update_culls_first_ball 1 w_skip 0%nat [1%nat]).
  - apply wf_check_sound. vm_compute. reflexivity.
  - reflexivity.
  - reflexivity.
Defined.

Lemma update_loop_remaining (dt : Q) (fuel i : nat) (w : World) :
  (length (balls (game w)) <= i + fuel)%nat ->
  (length (balls (game (fst (update_loop dt fuel i w))))
   <= i + length (snd (update_loop dt fuel i w)))%nat /\
  (length (snd (update_loop dt fuel i w)) <= fuel)%nat.
Proof.
  revert i w. induction fuel as [| fuel IH]; intros i w Hlen; cbn [update_loop].
  - cbn [fst snd length]. lia.
  - destruct (balls (game w) !! i) as [a |] eqn:E.
    2: { cbn [fst snd length]. apply lookup_ge_None in E. lia. }
    pose proof (step_ball_evolves dt a w (list_elem_of_lookup_2 _ _ _ E)) as He.
    apply ev_balls, sublist_length in He.
    specialize (IH (S i) (step_ball dt a w) ltac:(lia)).
    destruct (update_loop dt fuel (S i) (step_ball dt a w)) as [w' t].
    cbn [fst snd length] in *. lia.
Qed.

(** X19: the loop of [update] runs its body only on balls of [balls], at
    most once per position, and on at least as many balls as remain
    afterwards: it skips no more balls than it culls. *)
Theorem update_skips_at_most_what_it_culls (dt : Q) (w : World) :
  (length (balls (game (update dt w))) <= length (stepped dt w))%nat /\
  (length (stepped dt w) <= length (balls (game w)))%nat /\
  stepped dt w ⊆ balls (game w).
Proof.
  destruct (update_loop_remaining dt (length (balls (game w))) 0 w) as [H1 H2]; [lia |].
  unfold update.
  destruct (handle_ball_collisions_spec (update_balls dt w)) as [_ [-> _]].
  split; [exact H1 |]. split; [exact H2 | apply update_loop_trace].
Qed.

Lemma Qeq_of_eq (p q : Q) : p = q -> p == q.
Proof. now intros ->. Qed.

Lemma Qmult_shrink (p f : Q) : 0 <= p -> 0 <= f <= 1 -> 0 <= p * f <= p.
Proof.
  intros Hp [Hf0 Hf1].
  pose proof (Qmult_le_0_compat p f Hp Hf0).
  assert (H1 : 0 <= 1 - f) by lra.
  pose proof (Qmult_le_0_compat p (1 - f) Hp H1). lra.
Qed.

Lemma Qabs_damped (v f k : Q) :
  0 <= f <= 1 -> 0 <= k <= 1 -> Qabs (- (v * f) * k) <= Qabs v.
Proof.
  intros Hf Hk. rewrite Qabs_Qmult, Qabs_opp, Qabs_Qmult.
  rewrite (Qabs_pos f) by apply Hf. rewrite (Qabs_pos k) by apply Hk.
  pose proof (Qmult_shrink (Qabs v) f (Qabs_nonneg v) Hf) as H1.
  pose proof (Qmult_shrink (Qabs v * f) k (proj1 H1) Hk) as H2. lra.
Qed.

Lemma move_ball_vx_le (self : GameLogic) (dt : Q) (ball : Ball) :
  0 <= friction self <= 1 ->
  Qabs (vx (move_ball self dt ball)) <= Qabs (vx ball).
Proof.
  intros Hf. destruct ball as [bx bY bvx bvy br bc].
  unfold move_ball. cbn [x y vx vy radius set_x set_y set_vx set_vy].
  assert (H1 : Qabs (bvx * friction self) <= Qabs bvx).
  { rewrite Qabs_Qmult. rewrite (Qabs_pos (friction self)) by apply Hf.
    apply (Qmult_shrink (Qabs bvx) (friction self) (Qabs_nonneg bvx) Hf). }
  assert (H2 : Qabs (- (bvx * friction self) * (7 # 10)) <= Qabs bvx).
  { apply Qabs_damped; [exact Hf | split; discriminate]. }
  case_Qltb; cbn [x y vx vy radius set_x set_y set_vx set_vy]; assumption.
Qed.

Lemma update_loop_vx_le (dt : Q) (fuel i : nat) (w : World) (a : addr) :
  0 <= friction (game w) <= 1 ->
  Qabs (vx (objs (fst (update_loop dt fuel i w)) !!! a)) <= Qabs (vx (objs w !!! a)).
Proof.
  revert i w. induction fuel as [| fuel IH]; intros i w Hf; cbn [update_loop].
  - apply Qle_refl.
  - destruct (balls (game w) !! i) as [a' |] eqn:E; [| apply Qle_refl].
    pose proof (step_ball_evolves dt a' w (list_elem_of_lookup_2 _ _ _ E)) as He.
    specialize (IH (S i) (step_ball dt a' w)).
    destruct (update_loop dt fuel (S i) (step_ball dt a' w)) as [w' t].
    cbn [fst] in *. eapply Qle_trans; [apply IH; now rewrite (ev_friction _ _ He) |].
    rewrite step_ball_objs.
    destruct (decide (a' = a /\ (a' < length (objs w))%nat)) as [[-> Hl] | Hne].
    + rewrite list_lookup_total_insert_eq by exact Hl. now apply move_ball_vx_le.
    + destruct (decide (a' = a)) as [-> | Hd].
      * rewrite list_insert_ge by lia. apply Qle_refl.
      * rewrite list_lookup_total_insert_ne by exact Hd. apply Qle_refl.
Qed.

(** X21: with a friction between 0 and 1, [update] never increases the
    absolute horizontal velocity of any ball. *)
Theorem update_never_speeds_up_sideways (dt : Q) (w : World) (a : addr) :
  0 <= friction (game w) <= 1 ->
  Qabs (vx (objs (update dt w) !!! a)) <= Qabs (vx (objs w !!! a)).
Proof.
  intros Hf. unfold update.
  destruct (handle_ball_collisions_spec (update_balls dt w)) as [_ [_ Hm]].
  destruct (Hm a) as (_ & _ & Hvx & _).
  apply (Qle_trans _ (Qabs (vx (objs (update_balls dt w) !!! a))));
    [| now apply update_loop_vx_le].
  apply Qle_lteq. right. apply Qabs_wd, Qeq_of_eq, Hvx.
Qed.

(** [update_never_speeds_up_sideways] on the moving ball of [w_inv]. *)
Lemma update_never_speeds_up_sideways_witness :
  Qabs (vx (objs (update 1 w_inv) !!! 0%nat)) <= Qabs (vx (objs w_inv !!! 0%nat)).
Proof.
  apply (update_never_speeds_up_sideways 1 w_inv 0%nat).
  vm_compute. split; discriminate.
Defined.


Lemma with_inventory_nil_wf (w : World) : wf w -> wf (clear_inventory w).
Proof.
  intros [Hn Ha]. split; cbn [clear_inventory with_inventory game balls inventory objs cols].
  - rewrite app_nil_r. now apply NoDup_app in Hn as (Hn & _).
  - intros a Hin. rewrite app_nil_r in Hin. apply Ha, elem_of_app. now left.
Qed.

Lemma set_screen_size_wf (width0 height0 : Q) (w : World) :
  wf w -> wf (set_screen_size width0 height0 w).
Proof. intros [Hn Ha]. now split. Qed.

Lemma new_color_wf (c : Color) (w : World) : wf w -> wf (snd (new_color c w)).
Proof. intros H. eapply evolves_wf; [exact H | apply new_color_evolves]. Qed.

(** ** Reachable worlds *)

Lemma collide_colors_valid (a1 a2 : addr) (st : World * list (addr * addr)) :
  Forall valid_color (cols (fst st)) ->
  Forall valid_color (cols (fst (collide a1 a2 st))).
Proof.
  destruct st as [w p]. unfold collide. cbn [fst]. intros H.
  destruct (is_colliding _ _); [| exact H].
  case_bool_decide; [exact H |].
  cbn [new_color store fst cols]. apply Forall_app. split; [exact H |].
  apply Forall_singleton, mix_colors_valid.
Qed.

Lemma collide_all_colors_valid (l : list addr) (st : World * list (addr * addr)) :
  Forall valid_color (cols (fst st)) ->
  Forall valid_color (cols (fst (collide_all l st))).
Proof.
  revert st. induction l as [| a1 l IH]; intros st H; cbn [collide_all]; [exact H |].
  apply IH. clear IH. revert st H.
  induction l as [| a2 l IH]; intros st H; cbn [foldl]; [exact H |].
  now apply IH, collide_colors_valid.
Qed.

Lemma update_colors_valid (dt : Q) (w : World) :
  Forall valid_color (cols w) -> Forall valid_color (cols (update dt w)).
Proof.
  intros H. unfold update, _handle_ball_collisions.
  apply collide_all_colors_valid. cbn [fst]. now rewrite update_balls_cols.
Qed.

Lemma remove_ball_cols (a : addr) (w : World) : cols (remove_ball a w) = cols w.
Proof. destruct (remove_ball_balls a w) as [(i & _ & ->) | ->]; reflexivity. Qed.

Lemma suck_ball_cols (mouse_x mouse_y suck_radius : Q) (w w' : World)
    (res : option addr) :
  suck_ball mouse_x mouse_y suck_radius w = Returned (res, w') -> cols w' = cols w.
Proof.
  intros Hs.
  destruct (suck_ball_outcome mouse_x mouse_y suck_radius w)
    as [(k & a & _ & _ & _ & Hr) | [_ Hr]]; rewrite Hr in Hs;
    now injection Hs as <- <-.
Qed.

Lemma spit_ball_cols (mx my velocity cos_angle sin_angle : Q) (w : World) :
  cols (snd (spit_ball mx my velocity cos_angle sin_angle w)) = cols w.
Proof. unfold spit_ball. now destruct (last (inventory (game w))). Qed.

Lemma add_ball_colors_valid (x0 y0 : Q) (color0 : option addr) (rnd : Z * Z * Z)
    (w : World) :
  Forall valid_color (cols w) ->
  Forall valid_color (cols (snd (add_ball x0 y0 color0 rnd w))).
Proof.
  intros H. unfold add_ball.
  destruct color0 as [c |]; [exact H |]. destruct rnd as [[r0 g0] b0].
  cbn [new_color new_ball with_balls snd fst cols].
  apply Forall_app. split; [exact H |]. apply Forall_singleton, Color_init_valid.
Qed.

(** What every reachable world satisfies. *)
Lemma reachable_inv (w : World) :
  reachable w -> wf w /\ Forall valid_color (cols w).
Proof.
  induction 1 as [ | r0 g0 b0 w _ [IHw IHc] | x0 y0 color0 rnd w _ [IHw IHc] Hc
                   | a w _ [IHw IHc] | dt w _ [IHw IHc]
                   | mx my rad w w' res _ [IHw IHc] Hs
                   | mx my v c s w _ [IHw IHc] | w _ [IHw IHc]
                   | width0 height0 w _ [IHw IHc] ].
  - split; [apply GameLogic_init_wf | apply Forall_nil_2].
  - split; [now apply new_color_wf |]. cbn [new_color snd cols].
    apply Forall_app. split; [exact IHc |]. apply Forall_singleton, Color_init_valid.
  - split; [now apply add_ball_wf | now apply add_ball_colors_valid].
  - split; [now apply remove_ball_wf | now rewrite remove_ball_cols].
  - split; [now apply update_wf | now apply update_colors_valid].
  - split; [eapply suck_ball_wf; eassumption |].
    now rewrite (suck_ball_cols _ _ _ _ _ _ Hs).
  - split; [now apply spit_ball_wf | now rewrite spit_ball_cols].
  - split; [now apply with_inventory_nil_wf | exact IHc].
  - split; [now apply set_screen_size_wf | exact IHc].
Qed.

(** X23: every world reached from [GameLogic()] through the methods keeps
    the ownership invariant: each ball is an object with a colour, held
    exactly once, by [balls] or by [inventory]. *)
Theorem reachable_wf (w : World) : reachable w -> wf w.
Proof. intros H. apply reachable_inv, H. Qed.

(** X24: in every reachable world, the colour of every ball has its three
    channels in [0, 255]. *)
Theorem reachable_ball_colors_valid (w : World) (a : addr) :
  reachable w -> a ∈ balls (game w) ++ inventory (game w) ->
  valid_color (cols w !!! color (objs w !!! a)).
Proof.
  intros Hr Hin. destruct (reachable_inv w Hr) as [[_ Ha] Hc].
  destruct (Ha a Hin) as [_ Hl].
  apply lookup_lt_is_Some_2 in Hl as [c Hl].
  rewrite (list_lookup_total_correct _ _ _ Hl).
  eapply Forall_lookup_1; eassumption.
Qed.

(** X20: when [update] culls nothing, its loop body runs on every ball in
    collection order, [balls] is unchanged, and every ball ends with the
    position, velocity and radius of the full step. *)
Theorem update_without_cull (dt : Q) (w : World) :
  wf w ->
  length (balls (game (update dt w))) = length (balls (game w)) ->
  stepped dt w = balls (game w) /\
  balls (game (update dt w)) = balls (game w) /\
  forall a, a ∈ balls (game w) ->
    same_motion (move_ball (game w) dt (objs w !!! a)) (objs (update dt w) !!! a).
Proof.
  intros Hwf Hlen. split; [now apply update_no_cull_steps_all |]. split.
  - unfold update in *.
    destruct (handle_ball_collisions_spec (update_balls dt w)) as [_ [Hg _]].
    rewrite Hg in *.
    now apply (update_loop_no_cull dt (length (balls (game w))) 0 w).
  - intros a Ha. now apply update_no_cull_moves_all.
Qed.

(** [inventory_is_a_stack] on [w_twins]: both balls are sucked, then spat. *)
Lemma inventory_is_a_stack_witness :
  let w3 := snd (spit_ball 10 10 5 1 0 w_twins_2) in
  let w4 := snd (spit_ball 20 20 5 0 1 w3) in
  fst (spit_ball 10 10 5 1 0 w_twins_2) = Some 1%nat /\
  fst (spit_ball 20 20 5 0 1 w3) = Some 0%nat /\
  inventory (game w4) = inventory (game w_twins).
Proof.
  apply (inventory_is_a_stack 100 100 50 100 100 50 10 10 5 1 0 20 20 5 0 1
           w_twins w_twins_1 w_twins_2 0%nat 1%nat); reflexivity.
Defined.

(** [isolated_ball_keeps_color] on the second ball of [w_skip]. *)
Lemma isolated_ball_keeps_color_witness :
  objs (_handle_ball_collisions w_skip) !!! 1%nat = objs w_skip !!! 1%nat.
Proof.
  apply (isolated_ball_keeps_color w_skip 1%nat).
  - apply (bool_decide_unpack _). vm_compute. exact I.
  - intros a' Hin Hne. vm_compute in Hin.
    apply elem_of_cons in Hin as [-> | Hin]; [reflexivity |].
    apply elem_of_cons in Hin as [-> | Hin]; [lia | inversion Hin].
Defined.

(** [update_without_cull] on [w_twins], far from the delete zone. *)
Lemma update_without_cull_witness :
  stepped 1 w_twins = balls (game w_twins) /\
  balls (game (update 1 w_twins)) = balls (game w_twins) /\
  forall a, a ∈ balls (game w_twins) ->
    same_motion (move_ball (game w_twins) 1 (objs w_twins !!! a))
                (objs (update 1 w_twins) !!! a).
Proof.
  apply (update_without_cull 1 w_twins).
  - apply wf_check_sound. vm_compute. reflexivity.
  - reflexivity.
Defined.

(** [reachable_wf] on [w_reach]. *)
Lemma reachable_wf_witness : wf w_reach.
Proof.
  apply (reachable_wf w_reach).
  apply reach_update, reach_add_ball; [apply reach_init | discriminate].
Defined.

(** [reachable_ball_colors_valid] on the ball of [w_reach]. *)
Lemma reachable_ball_colors_valid_witness :
  valid_color (cols w_reach !!! color (objs w_reach !!! 0%nat)).
Proof.
  apply (reachable_ball_colors_valid w_reach 0%nat).
  - apply reach_update, reach_add_ball; [apply reach_init | discriminate].
  - vm_compute. left.
Defined.
